(** * intl-unified-numberformat: the numeric formatting pipeline

    A shallow embedding of [utils.ts] ([toRawFixed], [toRawPrecision]) and of
    the formatting core of [core.ts] ([formatNumberToString],
    [computeExponent], [computeExponentForMagnitude],
    [getNumberFormatPattern], [formatToParts]).

    Numbers.  A JavaScript number is an IEEE-754 binary64 value.  The
    embedding keeps the special values ([NaN], the infinities, the negative
    zero) and represents every other finite value by the rational it
    denotes.

    Arithmetic is given twice.  In [toRawFixed], [toRawPrecision],
    [formatNumberToString] and [computeExponent] it is exact:
    [Math.floor(Math.log(x) / Math.log(10))] is the floor of the decimal
    logarithm and [Number.prototype.toString] on an integer is its decimal
    numeral.  This is what the host computes on the inputs at which the
    code is shown to depart from its documented behaviour (1.5, 999.5,
    1234.5, 0.25, 9.5): they are binary64 values on which every comparison
    of the source is decided as it is here.  It is not what
    the host computes on every input: a binary64 product or quotient is
    rounded, the computed logarithm misses some powers of ten, and an
    integer is printed in exponent notation from 1e21 on.  The properties
    of the digit strings that are meant for every input are therefore
    stated on [toRawFixedOn], [toRawPrecisionOn] and
    [formatNumberToStringOn]: the same functions with the operations of
    the host as parameters (a [Host]), under hypotheses on the values that
    the host has computed.  [binary64] is the host whose products,
    quotients and powers of ten are correctly rounded.

    Integers of the source (digit counts, lengths, exponents) are [Z];
    strings are [string]; a thrown exception is the [Throw] case of
    [completion].  The types and tables that [core.ts] imports from
    [@formatjs/intl-utils] and [./data] are modelled by records and
    parameters. *)

From Stdlib Require Import ZArith QArith Qround Qpower Qreduction Qabs Lqa.
From Stdlib Require Import Bool List Ascii String Lia.
Import ListNotations.

Local Open Scope string_scope.
Local Open Scope Z_scope.

(** ** Host functions: strings *)

Module JS.

(** [String.prototype.slice]: a negative index counts from the end, and both
    indices are clamped to the string. *)
Definition relIndex (len i : Z) : Z :=
  if i <? 0 then Z.max (len + i) 0 else Z.min i len.

Definition strlen (s : string) : Z := Z.of_nat (String.length s).

Definition slice (s : string) (from to : Z) : string :=
  let len := strlen s in
  let a := relIndex len from in
  let b := relIndex len to in
  substring (Z.to_nat a) (Z.to_nat (b - a)) s.

(** [s.slice(from)] *)
Definition sliceFrom (s : string) (from : Z) : string :=
  slice s from (strlen s).

(** [s.indexOf(c)] for a one-character needle; [-1] when absent. *)
Fixpoint indexOfFrom (s : string) (c : ascii) (i : Z) : Z :=
  match s with
  | EmptyString => -1
  | String a s' => if Ascii.eqb a c then i else indexOfFrom s' c (i + 1)
  end.

Definition indexOf (s : string) (c : ascii) : Z := indexOfFrom s c 0.

(** lodash [repeat(s, n)]: the empty string when [n < 1]. *)
Fixpoint repeatNat (s : string) (n : nat) : string :=
  match n with
  | O => ""
  | S n' => s ++ repeatNat s n'
  end.

Definition repeat (s : string) (n : Z) : string := repeatNat s (Z.to_nat n).

(** lodash [endsWith(s, c)] for a one-character target. *)
Fixpoint endsWith (s : string) (c : ascii) : bool :=
  match s with
  | EmptyString => false
  | String a EmptyString => Ascii.eqb a c
  | String _ s' => endsWith s' c
  end.

(** Decimal digit of [0 <= d < 10]. *)
Definition digitChar (d : Z) : ascii :=
  ascii_of_nat (48 + Z.to_nat d).

(** The decimal numeral of a non-negative integer, most significant digit
    first; [fuel] bounds the number of digits. *)
Fixpoint digitsFuel (fuel : nat) (n : Z) (acc : string) : string :=
  match fuel with
  | O => acc
  | S fuel' =>
      let acc' := String (digitChar (n mod 10)) acc in
      if n <? 10 then acc' else digitsFuel fuel' (n / 10) acc'
  end.

Definition digits (n : Z) : string :=
  digitsFuel (S (Z.to_nat (Z.log2 n))) n "".

(** [Number.prototype.toString] on an integer. *)
Definition toString (n : Z) : string :=
  if n <? 0 then "-" ++ digits (- n) else digits n.

End JS.

(** ** Host functions: exact arithmetic *)

Definition Qlt_bool (x y : Q) : bool := negb (Qle_bool y x).

(** [10 ** k], [Math.pow(10, k)] *)
Definition pow10 (k : Z) : Q := (10 # 1) ^ k.

(** [Math.floor(Math.log(x) / Math.log(10))] for [x > 0]: the integer [e] with
    [10^e <= x < 10^(e+1)].  For [x >= 1] it is one less than the number of
    digits of the integer part; for [x < 1] it is minus the least [k] with
    [x * 10^k >= 1]. *)
Definition floorLog10 (x : Q) : Z :=
  if Qle_bool 1 x
  then JS.strlen (JS.digits (Qfloor x)) - 1
  else - JS.strlen (JS.digits (Qceiling (/ x) - 1)).

(** ** utils.ts *)

Record RawNumberFormatResult := mkRaw {
  formattedString : string;
  roundedNumber : Q;
  integerDigitsCount : Z
}.

(** The block shared by [toRawFixed] and [toRawPrecision]:
    [n = exactSolve - roundDown < roundUp - exactSolve ? roundDown
    : roundUp]. *)
Definition roundExact (exactSolve : Q) : Z :=
  let roundDown := Qfloor exactSolve in
  let roundUp := Qceiling exactSolve in
  if Qlt_bool (exactSolve - inject_Z roundDown) (inject_Z roundUp - exactSolve)
  then roundDown else roundUp.

(** [while (cut > 0 && endsWith(m, '0')) { m = m.slice(0, -1); cut--; }]:
    the loop runs at most [cut] times. *)
Fixpoint trimLoop (fuel : nat) (m : string) : string :=
  match fuel with
  | O => m
  | S fuel' =>
      if JS.endsWith m "0" then trimLoop fuel' (JS.slice m 0 (-1)) else m
  end.

Definition trimZeros (cut : Z) (m : string) : string :=
  trimLoop (Z.to_nat cut) m.

Definition trimPoint (m : string) : string :=
  if JS.endsWith m "." then JS.slice m 0 (-1) else m.

Definition toRawFixed (x : Q) (minFraction maxFraction : Z)
  : RawNumberFormatResult :=
  let f := maxFraction in
  let n := roundExact (x * pow10 f) in
  let xFinal := Qred (x / pow10 f) in
  let m := if n =? 0 then "0" else JS.toString n in
  let '(m, int) :=
    if negb (f =? 0) then
      let k := JS.strlen m in
      let '(m, k) :=
        if k <=? f
        then (JS.repeat "0" (f + 1 - k) ++ m, f + 1)
        else (m, k) in
      let a := JS.slice m 0 (k - f) in
      let b := JS.sliceFrom m (k - f) in
      (a ++ "." ++ b, JS.strlen a)
    else (m, JS.strlen m) in
  let cut := maxFraction - minFraction in
  let m := trimZeros cut m in
  let m := trimPoint m in
  mkRaw m xFinal int.

Definition toRawPrecision (x : Q) (minPrecision maxPrecision : Z)
  : RawNumberFormatResult :=
  let p := maxPrecision in
  let '(m, e, xFinal) :=
    if Qeq_bool x 0 then (JS.repeat "0" p, 0, 0%Q)
    else
      let e := floorLog10 x in
      let n := roundExact (x / pow10 (e - p + 1)) in
      (JS.toString n, e, Qred (inject_Z n * pow10 (e - p + 1))) in
  let '(m, int) :=
    if e >=? p - 1 then (m ++ JS.repeat "0" (e - p + 1), e + 1)
    else if e >=? 0 then
      (JS.slice m 0 (e + 1) ++ "." ++ JS.sliceFrom m (e + 1), e + 1)
    else ("0." ++ JS.repeat "0" (- e - 1) ++ m, 1) in
  let m :=
    if (JS.indexOf m "." >=? 0) && (maxPrecision >? minPrecision)
    then trimPoint (trimZeros (maxPrecision - minPrecision) m)
    else m in
  mkRaw m xFinal int.

(** ** Numbers of core.ts *)

(** A finite number: the negative zero, or the rational it denotes
    ([Real 0] is the positive zero). *)
Inductive finite :=
  | NegZero
  | Real (q : Q).

Inductive number :=
  | NaN
  | PosInfinity
  | NegInfinity
  | Finite (x : finite).

Definition toQ (x : finite) : Q :=
  match x with
  | NegZero => 0%Q
  | Real q => q
  end.

Definition signBit (x : finite) : bool :=
  match x with
  | NegZero => true
  | Real q => Qlt_bool q 0
  end.

(** [x === 0] *)
Definition isZero (x : finite) : bool := Qeq_bool (toQ x) 0.

(** [x < 0] *)
Definition ltZero (x : finite) : bool := Qlt_bool (toQ x) 0.

(** [-x] *)
Definition negate (x : finite) : finite :=
  match x with
  | NegZero => Real 0
  | Real q => if Qeq_bool q 0 then NegZero else Real (Qred (- q))
  end.

(** [x * y]; a zero product takes the exclusive-or of the signs. *)
Definition mul (x y : finite) : finite :=
  let q := (toQ x * toQ y)%Q in
  if Qeq_bool q 0
  then (if xorb (signBit x) (signBit y) then NegZero else Real 0)
  else Real (Qred q).

(** [1 / x] *)
Definition reciprocal (x : finite) : number :=
  match x with
  | NegZero => NegInfinity
  | Real q => if Qeq_bool q 0 then PosInfinity else Finite (Real (Qred (/ q)))
  end.

(** [y === -Infinity] *)
Definition isNegInfinity (y : number) : bool :=
  match y with
  | NegInfinity => true
  | _ => false
  end.

(** ** Thrown exceptions *)

Inductive exn :=
  | Error (msg : string)
  | TypeError (msg : string).

Inductive completion (A : Type) :=
  | Normal (a : A)
  | Throw (e : exn).

Arguments Normal {A} a.
Arguments Throw {A} e.

Definition bind {A B : Type} (c : completion A) (k : A -> completion B)
  : completion B :=
  match c with
  | Normal a => k a
  | Throw e => Throw e
  end.

Notation "x <- c ;; k" := (bind c (fun x => k))
  (at level 61, c at next level, right associativity).

(** The two failures of the unimplemented paths. *)
Definition notImplemented : exn := Error "not implemented".
Definition compactNotImplemented : exn :=
  Error "`compact` is not implemented yet.".

Definition isNotImplemented (e : exn) : Prop :=
  e = notImplemented \/ e = compactNotImplemented.

(** ** Resolved options and locale data *)

Module Style.
Inductive t := decimal | percent | currency | unit.
End Style.

Module SignDisplay.
Inductive t := auto | always | never | exceptZero.
End SignDisplay.

Module Notation.
Inductive t := standard | scientific | engineering | compact.
End Notation.

Module RoundingType.
Inductive t := significantDigits | fractionDigits | compactRounding.
End RoundingType.

Module CompactDisplay.
Inductive t := short | long.
End CompactDisplay.

Module UnitDisplay.
Inductive t := long | short | narrow.
End UnitDisplay.

(** The keys of the pattern table below the sign display policy. *)
Module DisplayNotation.
Inductive t := standard | scientific | compactShort | compactLong.
End DisplayNotation.

Module Sign.
Inductive t := positivePattern | zeroPattern | negativePattern.
End Sign.

(** Modelled from the spec: the pattern table of [@formatjs/intl-utils]
    ([SignDisplayPattern], [NotationPattern], [SignPattern]), keyed by sign
    display policy, notation category and sign class. *)
Definition SignDisplayPattern : Type :=
  SignDisplay.t -> DisplayNotation.t -> Sign.t -> string.

(** Modelled from the spec: a name table entry is either one string or a
    record of plural forms, of which only [one] and [other] are read. *)
Inductive PluralData :=
  | Plain (s : string)
  | ByRule (one other : string).

(** Modelled from the spec: the locale data record of
    [@formatjs/intl-utils] ([NumberInternalSlots]), as [core.ts] reads it:
    the name tables of a unit and of a currency, the symbol table, and the
    pattern tables by style.  An entry that may be missing is an [option]. *)
Record UnitSymbols := {
  us_unitSymbol : option PluralData;
  us_unitNarrowSymbol : option PluralData;
  us_unitName : option PluralData
}.

Record CurrencySymbols := {
  cs_currencySymbol : option string;
  cs_currencyNarrowSymbol : option string;
  cs_currencyName : option PluralData
}.

Record Symbols := {
  sym_decimal : string;
  sym_group : string;
  sym_plusSign : string;
  sym_minusSign : string;
  sym_percentSign : string;
  sym_exponential : string;
  sym_nan : string;
  sym_infinity : string
}.

Record NumberILD := {
  symbols : Symbols;
  unitSymbols : string -> option UnitSymbols;
  currencySymbols : string -> option CurrencySymbols
}.

Record Patterns := {
  pat_decimal : SignDisplayPattern;
  pat_percent : SignDisplayPattern;
  pat_unit : string -> option (UnitDisplay.t -> SignDisplayPattern)
}.

Record NumberInternalSlots := {
  patterns : Patterns;
  ild : NumberILD
}.

(** [UnifiedNumberFormatInternal]: the internal slots of a formatter, with
    its plural rules [pl] ([pl x] holds when [pl.select(x) === 'one']).
    [currency] and [unit] are read under the matching style only, where the
    constructor has checked that they are defined. *)
Record UnifiedNumberFormat := {
  style : Style.t;
  currency : string;
  unit : string;
  unitDisplay : UnitDisplay.t;
  roundingType : RoundingType.t;
  notation : Notation.t;
  compactDisplay : option CompactDisplay.t;
  signDisplay : SignDisplay.t;
  useGrouping : bool;
  minimumIntegerDigits : Z;
  minimumFractionDigits : Z;
  maximumFractionDigits : Z;
  minimumSignificantDigits : Z;
  maximumSignificantDigits : Z;
  ildData : NumberInternalSlots;
  numberingSystem : string;
  pl : number -> bool
}.

(** ** core.ts: rounding and exponent *)

Record FormatNumberResult := mkFormatted {
  fn_roundedNumber : finite;
  fn_formattedString : string
}.

(** The rounding of [formatNumberToString], by rounding type, on the
    magnitude of the number. *)
Definition roundMagnitude (numberFormat : UnifiedNumberFormat) (x : Q)
  : RawNumberFormatResult :=
  match roundingType numberFormat with
  | RoundingType.significantDigits =>
      toRawPrecision x
        (minimumSignificantDigits numberFormat)
        (maximumSignificantDigits numberFormat)
  | RoundingType.fractionDigits =>
      toRawFixed x
        (minimumFractionDigits numberFormat)
        (maximumFractionDigits numberFormat)
  | RoundingType.compactRounding =>
      let result := toRawFixed x 0 0 in
      if integerDigitsCount result =? 1
      then toRawPrecision x 1 2
      else result
  end.

(** [formatNumberToString]; its callers pass finite numbers only. *)
Definition formatNumberToString (numberFormat : UnifiedNumberFormat)
  (x : finite) : FormatNumberResult :=
  let isNegative := ltZero x || isNegInfinity (reciprocal x) in
  let x := if isNegative then negate x else x in
  let result := roundMagnitude numberFormat (toQ x) in
  let x := Real (roundedNumber result) in
  let string := formattedString result in
  let int := integerDigitsCount result in
  let minInteger := minimumIntegerDigits numberFormat in
  let string :=
    if int <? minInteger
    then JS.repeat "0" (minInteger - int) ++ string
    else string in
  let x := if isNegative then negate x else x in
  mkFormatted x string.

Definition computeExponentForMagnitude (numberFormat : UnifiedNumberFormat)
  (magnitude : Z) : completion Z :=
  match notation numberFormat with
  | Notation.standard => Normal 0
  | Notation.scientific => Normal magnitude
  | Notation.engineering => Normal (magnitude / 3 * 3)
  | Notation.compact => Throw compactNotImplemented
  end.

Definition computeExponent (numberFormat : UnifiedNumberFormat) (x : finite)
  : completion Z :=
  if isZero x then Normal 0
  else
    let x := if ltZero x then negate x else x in
    let magnitude := floorLog10 (toQ x) in
    exponent <- computeExponentForMagnitude numberFormat magnitude ;;
    let x := mul x (Real (pow10 (- exponent))) in
    let formatNumberResult := formatNumberToString numberFormat x in
    if isZero (fn_roundedNumber formatNumberResult) then Normal exponent
    else
      let newMagnitude := floorLog10 (toQ x) in
      if newMagnitude =? magnitude - exponent then Normal exponent
      else computeExponentForMagnitude numberFormat (magnitude + 1).

(** The [switch (style)] of [getNumberFormatPattern]; a missing table entry
    is a [TypeError]. *)
Definition stylePatterns (numberFormat : UnifiedNumberFormat)
  : completion SignDisplayPattern :=
  match style numberFormat with
  | Style.percent => Normal (pat_percent (patterns (ildData numberFormat)))
  | Style.unit =>
      match pat_unit (patterns (ildData numberFormat))
              (unit numberFormat) with
      | Some byDisplay => Normal (byDisplay (unitDisplay numberFormat))
      | None => Throw (TypeError "undefined unit patterns")
      end
  | Style.currency => Throw notImplemented
  | Style.decimal => Normal (pat_decimal (patterns (ildData numberFormat)))
  end.

Definition getNumberFormatPattern (numberFormat : UnifiedNumberFormat)
  (x : number) (exponent : Z) : completion string :=
  patterns <- stylePatterns numberFormat ;;
  let displayNotation :=
    match notation numberFormat with
    | Notation.scientific | Notation.engineering => DisplayNotation.scientific
    | _ =>
        if negb (exponent =? 0) then
          match compactDisplay numberFormat with
          | Some CompactDisplay.short => DisplayNotation.compactShort
          | _ => DisplayNotation.compactLong
          end
        else DisplayNotation.standard
    end in
  let sign :=
    match x with
    | NaN => Sign.positivePattern
    | NegInfinity => Sign.negativePattern
    | PosInfinity => Sign.positivePattern
    | Finite y =>
        if ltZero y || isNegInfinity (reciprocal y) then Sign.negativePattern
        else if isZero y then Sign.zeroPattern
        else Sign.positivePattern
    end in
  Normal (patterns (signDisplay numberFormat) displayNotation sign).

(** ** core.ts: assembling the parts *)

Module PartType.
Inductive t :=
    | literal | integer | group | decimal | fraction
    | plusSign | minusSign | percentSign | unit
    | exponentSeparator | exponentMinusSign | exponentInteger
    | nan | infinity.
End PartType.

Record UnifiedNumberFormatPart := mkPart {
  type : PartType.t;
  value : string
}.

(** [pattern.split(/({\w+})/).filter(x => x)]: the pattern is cut at every
    brace-delimited word; empty pieces are dropped. *)
Definition isWordChar (c : ascii) : bool :=
  let k := nat_of_ascii c in
  ((48 <=? k) && (k <=? 57) || (65 <=? k) && (k <=? 90)
   || (97 <=? k) && (k <=? 122) || (k =? 95))%nat.

Definition pushNonEmpty (parts : list string) (s : string) : list string :=
  match s with
  | EmptyString => parts
  | _ => parts ++ [s]
  end.

(** [lit] is the literal text read so far; [open] holds the word read since
    an opening brace that may still start a token. *)
Fixpoint splitLoop (s : string) (parts : list string) (lit : string)
  (open : option string) : list string :=
  match s with
  | EmptyString =>
      match open with
      | None => pushNonEmpty parts lit
      | Some w => pushNonEmpty parts (lit ++ "{" ++ w)
      end
  | String c s' =>
      let one := String c EmptyString in
      match open with
      | None =>
          if Ascii.eqb c "{" then splitLoop s' parts lit (Some "")
          else splitLoop s' parts (lit ++ one) None
      | Some w =>
          if isWordChar c then splitLoop s' parts lit (Some (w ++ one))
          else if Ascii.eqb c "}" && negb (String.eqb w "") then
            splitLoop s' (pushNonEmpty parts lit ++ ["{" ++ w ++ "}"]) "" None
          else if Ascii.eqb c "{" then
            splitLoop s' parts (lit ++ "{" ++ w) (Some "")
          else splitLoop s' parts (lit ++ "{" ++ w ++ one) None
      end
  end.

Definition splitPattern (pattern : string) : list string :=
  splitLoop pattern [] "" None.

(** [for (; i > 0; i -= 3) groups.push(n.slice(i, i + 3))], returning the
    groups and the final [i]. *)
Fixpoint groupLoop (fuel : nat) (n : string) (i : Z) (groups : list string)
  : list string * Z :=
  match fuel with
  | O => (groups, i)
  | S fuel' =>
      if i >? 0
      then groupLoop fuel' n (i - 3) (groups ++ [JS.slice n i (i + 3)])
      else (groups, i)
  end.

(** [while (groups.length > 0) { pop; push integer; push group if more }],
    on the groups in popping order. *)
Fixpoint popGroups (popped : list string) (groupSepSymbol : string)
  : list UnifiedNumberFormatPart :=
  match popped with
  | [] => []
  | integerGroup :: rest =>
      mkPart PartType.integer integerGroup ::
      match rest with
      | [] => []
      | _ => mkPart PartType.group groupSepSymbol ::
             popGroups rest groupSepSymbol
      end
  end.

(** [+digit] indexes the replacement table; a character that is no digit
    gives [undefined], which concatenation prints. *)
Definition digitValue (c : ascii) : option nat :=
  let k := nat_of_ascii c in
  if ((48 <=? k) && (k <=? 57))%nat then Some (k - 48)%nat else None.

Fixpoint replaceDigits (replacementTable : list string) (n : string)
  : string :=
  match n with
  | EmptyString => ""
  | String digit n' =>
      match digitValue digit with
      | Some d => nth d replacementTable "undefined"
      | None => "undefined"
      end ++ replaceDigits replacementTable n'
  end.

(** [selectPlural] *)
Definition selectPlural (pl : number -> bool) (x : number)
  (rules : option PluralData) : completion string :=
  match rules with
  | Some (Plain s) => Normal s
  | Some (ByRule one other) => Normal (if pl x then one else other)
  | None => Throw (TypeError "undefined plural rules")
  end.

(** [a || b] on table entries: an absent entry and the empty string are
    falsy. *)
Definition orElse (a b : option PluralData) : option PluralData :=
  match a with
  | None | Some (Plain EmptyString) => b
  | _ => a
  end.

(** Modelled from the spec: the placeholder names of [InternalSlotToken]
    ([@formatjs/intl-utils]); every member is the string of its own name. *)
Module InternalSlotToken.
Definition number : string := "number".
Definition plusSign : string := "plusSign".
Definition minusSign : string := "minusSign".
Definition compactSymbol : string := "compactSymbol".
Definition compactName : string := "compactName".
Definition scientificSeparator : string := "scientificSeparator".
Definition scientificExponent : string := "scientificExponent".
Definition percentSign : string := "percentSign".
Definition unitSymbol : string := "unitSymbol".
Definition unitNarrowSymbol : string := "unitNarrowSymbol".
Definition unitName : string := "unitName".
Definition currencyCode : string := "currencyCode".
Definition currencySymbol : string := "currencySymbol".
Definition currencyNarrowSymbol : string := "currencyNarrowSymbol".
Definition currencyName : string := "currencyName".
End InternalSlotToken.

Record LoopState := mkState {
  results : list UnifiedNumberFormatPart;
  n : string;
  exponent : Z
}.

Section FormatToParts.

(** The digit tables of [data.ts], by numbering system. *)
Variable ILND : string -> option (list string).

Definition push (st : LoopState) (ps : list UnifiedNumberFormatPart)
  : LoopState :=
  mkState (results st ++ ps) (n st) (exponent st).

(** The [number] token on a finite number. *)
Definition numberParts (numberFormat : UnifiedNumberFormat) (st : LoopState)
  : LoopState :=
  let sym := symbols (ild (ildData numberFormat)) in
  let nu := numberingSystem numberFormat in
  let n :=
    match (if String.eqb nu "" then None else ILND nu) with
    | Some replacementTable => replaceDigits replacementTable (n st)
    | None => n st
    end in
  let decimalSepIndex := JS.indexOf n "." in
  let '(integer, fraction) :=
    if decimalSepIndex >? 0
    then (JS.slice n 0 decimalSepIndex,
          Some (JS.sliceFrom n (decimalSepIndex + 1)))
    else (n, None) in
  let integerParts :=
    if useGrouping numberFormat then
      let '(groups, i) :=
        groupLoop (String.length n) n (JS.strlen n - 3) [] in
      let groups := (groups ++ [JS.slice n 0 (i + 3)])%list in
      popGroups (rev groups) (sym_group sym)
    else [mkPart PartType.integer integer] in
  let fractionParts :=
    match fraction with
    | Some fraction =>
        [mkPart PartType.decimal (sym_decimal sym);
         mkPart PartType.fraction fraction]
    | None => []
    end in
  mkState (results st ++ integerParts ++ fractionParts)%list n (exponent st).

(** One iteration of [for (const part of patternParts)]. *)
Definition formatPart (numberFormat : UnifiedNumberFormat) (num : number)
  (st : LoopState) (part : string) : completion LoopState :=
  let ildData := ildData numberFormat in
  let sym := symbols (ild ildData) in
  if negb (String.eqb (JS.slice part 0 1) "{") then
    Normal (push st [mkPart PartType.literal part])
  else
    let p := JS.slice part 1 (-1) in
    if String.eqb p InternalSlotToken.number then
      match num with
      | NaN => Normal (push st [mkPart PartType.nan (n st)])
      | PosInfinity | NegInfinity =>
          Normal (push st [mkPart PartType.infinity (n st)])
      | Finite _ => Normal (numberParts numberFormat st)
      end
    else if String.eqb p InternalSlotToken.plusSign then
      Normal (push st [mkPart PartType.plusSign (sym_plusSign sym)])
    else if String.eqb p InternalSlotToken.minusSign then
      Normal (push st [mkPart PartType.minusSign (sym_minusSign sym)])
    else if String.eqb p InternalSlotToken.compactSymbol
            || String.eqb p InternalSlotToken.compactName then
      Throw notImplemented
    else if String.eqb p InternalSlotToken.scientificSeparator then
      Normal (push st [mkPart PartType.exponentSeparator
                         (sym_exponential sym)])
    else if String.eqb p InternalSlotToken.scientificExponent then
      let st :=
        if exponent st <? 0
        then mkState
               (results st ++
                [mkPart PartType.exponentMinusSign (sym_minusSign sym)])
               (n st) (- exponent st)
        else st in
      let exponentResult := toRawFixed (inject_Z (exponent st)) 0 0 in
      Normal (push st [mkPart PartType.exponentInteger
                         (formattedString exponentResult)])
    else if String.eqb p InternalSlotToken.percentSign then
      Normal (push st [mkPart PartType.percentSign (sym_percentSign sym)])
    else if String.eqb p InternalSlotToken.unitSymbol
            || String.eqb p InternalSlotToken.unitNarrowSymbol
            || String.eqb p InternalSlotToken.unitName then
      match style numberFormat with
      | Style.unit =>
          match unitSymbols (ild ildData) (unit numberFormat) with
          | None => Throw (TypeError "undefined unit symbols")
          | Some unitSymbols =>
              let entry :=
                if String.eqb p InternalSlotToken.unitSymbol
                then us_unitSymbol unitSymbols
                else if String.eqb p InternalSlotToken.unitNarrowSymbol
                then us_unitNarrowSymbol unitSymbols
                else us_unitName unitSymbols in
              mu <- selectPlural (pl numberFormat) num
                      (orElse entry (us_unitSymbol unitSymbols)) ;;
              Normal (push st [mkPart PartType.unit mu])
          end
      | _ => Normal st
      end
    else if String.eqb p InternalSlotToken.currencyCode
            || String.eqb p InternalSlotToken.currencySymbol
            || String.eqb p InternalSlotToken.currencyNarrowSymbol
            || String.eqb p InternalSlotToken.currencyName then
      match style numberFormat with
      | Style.currency =>
          let currency := currency numberFormat in
          cd <-
            (if String.eqb p InternalSlotToken.currencyCode
             then Normal currency
             else
               match currencySymbols (ild ildData) currency with
               | None => Throw (TypeError "undefined currency symbols")
               | Some cs =>
                   if String.eqb p InternalSlotToken.currencyName then
                     selectPlural (pl numberFormat) num (cs_currencyName cs)
                   else
                     Normal
                       match (if String.eqb p InternalSlotToken.currencySymbol
                              then cs_currencySymbol cs
                              else cs_currencyNarrowSymbol cs) with
                       | Some s => s
                       | None => ""
                       end
               end) ;;
          Normal (push st [mkPart PartType.unit
                             (if String.eqb cd "" then currency else cd)])
      | _ => Normal st
      end
    else Throw (Error "impossible").

Fixpoint formatParts (numberFormat : UnifiedNumberFormat) (num : number)
  (patternParts : list string) (st : LoopState) : completion LoopState :=
  match patternParts with
  | [] => Normal st
  | part :: rest =>
      st' <- formatPart numberFormat num st part ;;
      formatParts numberFormat num rest st'
  end.

(** The part of [formatToParts] after the digit string [n], the rounded
    [num] and the [exponent] are known: pattern selection and the loop over
    the pattern parts. *)
Definition assembleParts (numberFormat : UnifiedNumberFormat) (n : string)
  (num : number) (exponent : Z)
  : completion (list UnifiedNumberFormatPart) :=
  pattern <- getNumberFormatPattern numberFormat num exponent ;;
  st <- formatParts numberFormat num (splitPattern pattern)
          (mkState [] n exponent) ;;
  Normal (results st).

Definition formatToParts (numberFormat : UnifiedNumberFormat) (num : number)
  : completion (list UnifiedNumberFormatPart) :=
  let sym := symbols (ild (ildData numberFormat)) in
  match num with
  | NaN => assembleParts numberFormat (sym_nan sym) num 0
  | PosInfinity | NegInfinity =>
      assembleParts numberFormat (sym_infinity sym) num 0
  | Finite x =>
      let x :=
        match style numberFormat with
        | Style.percent => mul x (Real 100)
        | _ => x
        end in
      exponent <- computeExponent numberFormat x ;;
      let x := mul x (Real (pow10 (- exponent))) in
      let formatNumberResult := formatNumberToString numberFormat x in
      assembleParts numberFormat (fn_formattedString formatNumberResult)
        (Finite (fn_roundedNumber formatNumberResult)) exponent
  end.

(** [format]: the part values joined. *)
Definition format (numberFormat : UnifiedNumberFormat) (num : number)
  : completion string :=
  parts <- formatToParts numberFormat num ;;
  Normal (fold_right (fun part acc => value part ++ acc) "" parts).

End FormatToParts.

(** ** A sample locale *)

Module En.

Definition signed (body : string) : SignDisplay.t -> Sign.t -> string :=
  fun sd sg =>
    match sd, sg with
    | SignDisplay.auto, Sign.negativePattern => "{minusSign}" ++ body
    | SignDisplay.auto, _ => body
    | SignDisplay.always, Sign.negativePattern => "{minusSign}" ++ body
    | SignDisplay.always, _ => "{plusSign}" ++ body
    | SignDisplay.never, _ => body
    | SignDisplay.exceptZero, Sign.negativePattern => "{minusSign}" ++ body
    | SignDisplay.exceptZero, Sign.zeroPattern => body
    | SignDisplay.exceptZero, Sign.positivePattern => "{plusSign}" ++ body
    end.

Definition byNotation (pre post : string) : SignDisplayPattern :=
  fun sd dn sg =>
    match dn with
    | DisplayNotation.standard => signed (pre ++ "{number}" ++ post) sd sg
    | DisplayNotation.scientific =>
        signed (pre ++ "{number}{scientificSeparator}{scientificExponent}"
                ++ post) sd sg
    | DisplayNotation.compactShort =>
        signed (pre ++ "{number}{compactSymbol}" ++ post) sd sg
    | DisplayNotation.compactLong =>
        signed (pre ++ "{number} {compactName}" ++ post) sd sg
    end.

Definition data : NumberInternalSlots := {|
  patterns := {|
    pat_decimal := byNotation "" "";
    pat_percent := byNotation "" "{percentSign}";
    pat_unit := fun u =>
      if String.eqb u "meter"
      then Some (fun d =>
             match d with
             | UnitDisplay.long => byNotation "" " {unitName}"
             | UnitDisplay.short => byNotation "" " {unitSymbol}"
             | UnitDisplay.narrow => byNotation "" "{unitNarrowSymbol}"
             end)
      else None
  |};
  ild := {|
    symbols := {|
      sym_decimal := ".";
      sym_group := ",";
      sym_plusSign := "+";
      sym_minusSign := "-";
      sym_percentSign := "%";
      sym_exponential := "E";
      sym_nan := "NaN";
      sym_infinity := "Infinity"
    |};
    unitSymbols := fun u =>
      if String.eqb u "meter"
      then Some {| us_unitSymbol := Some (Plain "m");
                   us_unitNarrowSymbol := Some (Plain "m");
                   us_unitName := Some (ByRule "meter" "meters") |}
      else None;
    currencySymbols := fun _ => None
  |}
|}.

(** No numbering system has a digit table: digits stay ASCII. *)
Definition ILND : string -> option (list string) := fun _ => None.

Definition plural (x : number) : bool :=
  match x with
  | Finite (Real q) => Qeq_bool q 1
  | _ => false
  end.

(** [new UnifiedNumberFormat('en')]: decimal style, standard notation,
    0 to 3 fraction digits, grouping. *)
Definition decimalFormat : UnifiedNumberFormat := {|
  style := Style.decimal;
  currency := "";
  unit := "";
  unitDisplay := UnitDisplay.short;
  roundingType := RoundingType.fractionDigits;
  notation := Notation.standard;
  compactDisplay := None;
  signDisplay := SignDisplay.auto;
  useGrouping := true;
  minimumIntegerDigits := 1;
  minimumFractionDigits := 0;
  maximumFractionDigits := 3;
  minimumSignificantDigits := 1;
  maximumSignificantDigits := 21;
  ildData := data;
  numberingSystem := "latn";
  pl := plural
|}.

End En.

Definition withOptions (nf : UnifiedNumberFormat) (st : Style.t)
  (nt : Notation.t) (sd : SignDisplay.t) (rt : RoundingType.t)
  (mnid mn mx : Z) : UnifiedNumberFormat := {|
  style := st;
  currency := "USD";
  unit := "meter";
  unitDisplay := unitDisplay nf;
  roundingType := rt;
  notation := nt;
  compactDisplay :=
    match nt with
    | Notation.compact => Some CompactDisplay.short
    | _ => None
    end;
  signDisplay := sd;
  useGrouping := useGrouping nf;
  minimumIntegerDigits := mnid;
  minimumFractionDigits := mn;
  maximumFractionDigits := mx;
  minimumSignificantDigits := mn;
  maximumSignificantDigits := mx;
  ildData := ildData nf;
  numberingSystem := numberingSystem nf;
  pl := pl nf
|}.

(** ** Vocabulary of the properties *)

Definition isDigit (c : ascii) : bool :=
  match digitValue c with
  | Some _ => true
  | None => false
  end.

(** Number of decimal digits in a string. *)
Fixpoint digitCount (s : string) : Z :=
  match s with
  | EmptyString => 0
  | String c s' => (if isDigit c then 1 else 0) + digitCount s'
  end.

(** Number of digits other than ["0"]. *)
Fixpoint nonZeroDigitCount (s : string) : Z :=
  match s with
  | EmptyString => 0
  | String c s' =>
      (if isDigit c && negb (Ascii.eqb c "0") then 1 else 0)
      + nonZeroDigitCount s'
  end.

(** Number of digits from the first digit that is not a leading zero. *)
Fixpoint significantDigitCount (s : string) : Z :=
  match s with
  | EmptyString => 0
  | String c s' =>
      if Ascii.eqb c "0" || Ascii.eqb c "."
      then significantDigitCount s'
      else digitCount s
  end.

(** Number of characters before the decimal point. *)
Definition integerPartLength (s : string) : Z :=
  let i := JS.indexOf s "." in
  if i <? 0 then JS.strlen s else i.

(** [n / 10^f] for the integer [n] that [toRawFixed] prints. *)
Definition rescaledFixed (x : Q) (maxFraction : Z) : Q :=
  inject_Z (roundExact (x * pow10 maxFraction)) / pow10 maxFraction.

(** Following the spec's words: [n] is the integer nearest to [y], the larger
    one when [y] lies halfway between two integers. *)
Definition nearestHalfUp (y : Q) (n : Z) : Prop :=
  (Qabs (inject_Z n - y) < 1 # 2)%Q \/ (inject_Z n - y == 1 # 2)%Q.

(** The zero input of [toRawPrecision] as the spec words it: a string of
    [maxPrecision] zero digits, value 0, one integer digit. *)
Definition zeroDigitsResult (r : RawNumberFormatResult) (k : Z) : Prop :=
  digitCount (formattedString r) = k /\
  nonZeroDigitCount (formattedString r) = 0 /\
  (roundedNumber r == 0)%Q /\
  integerDigitsCount r = 1.

(** Every character is a decimal digit. *)
Fixpoint allDigits (s : string) : bool :=
  match s with
  | EmptyString => true
  | String c s' => isDigit c && allDigits s'
  end.

(** [d] is the decimal numeral of [n]: digits only, as many as the magnitude
    of [n] requires, and no leading zero unless [n = 0]. *)
Definition isNumeral (d : string) (n : Z) : Prop :=
  allDigits d = true /\
  1 <= JS.strlen d /\
  n < 10 ^ JS.strlen d /\
  (0 < n -> 10 ^ (JS.strlen d - 1) <= n /\
            exists c d', d = String c d' /\ c <> "0"%char).





(** Only zeros and the decimal point: what precedes the first significant
    digit. *)
Fixpoint onlyZerosAndPoint (s : string) : bool :=
  match s with
  | EmptyString => true
  | String c s' => (Ascii.eqb c "0" || Ascii.eqb c ".") && onlyZerosAndPoint s'
  end.

(** Following the spec's words: the sign class of a value is negative when
    it is below zero or the negative zero, zero when it is exactly zero,
    and positive otherwise. *)
Definition signClass (x : number) : Sign.t :=
  match x with
  | NaN | PosInfinity => Sign.positivePattern
  | NegInfinity | Finite NegZero => Sign.negativePattern
  | Finite (Real q) =>
      if Qlt_bool q 0 then Sign.negativePattern
      else if Qeq_bool q 0 then Sign.zeroPattern
      else Sign.positivePattern
  end.

(** Formatters used as concrete inputs. *)
Definition scientific0 : UnifiedNumberFormat :=
  withOptions En.decimalFormat Style.decimal Notation.scientific
    SignDisplay.auto RoundingType.fractionDigits 1 0 0.

Definition exceptZero0 : UnifiedNumberFormat :=
  withOptions En.decimalFormat Style.decimal Notation.standard
    SignDisplay.exceptZero RoundingType.fractionDigits 1 0 0.

Definition always0 : UnifiedNumberFormat :=
  withOptions En.decimalFormat Style.decimal Notation.standard
    SignDisplay.always RoundingType.fractionDigits 1 0 0.

Definition compactDecimal : UnifiedNumberFormat :=
  withOptions En.decimalFormat Style.decimal Notation.compact
    SignDisplay.auto RoundingType.compactRounding 1 0 0.

Definition currencyFormat : UnifiedNumberFormat :=
  withOptions En.decimalFormat Style.currency Notation.standard
    SignDisplay.auto RoundingType.fractionDigits 1 2 2.

Definition significant1Integer2 : UnifiedNumberFormat :=
  withOptions En.decimalFormat Style.decimal Notation.standard
    SignDisplay.auto RoundingType.significantDigits 2 1 1.

(** The number of characters after the decimal point; 0 without one. *)
Definition fractionLength (s : string) : Z :=
  let i := JS.indexOf s "." in
  if i <? 0 then 0 else JS.strlen s - i - 1.

(** The integer that the digits of [s] write, any other character being
    skipped. *)
Fixpoint numeralValueFrom (s : string) (acc : Z) : Z :=
  match s with
  | EmptyString => acc
  | String c s' =>
      match digitValue c with
      | Some d => numeralValueFrom s' (acc * 10 + Z.of_nat d)
      | None => numeralValueFrom s' acc
      end
  end.

(** The number that a decimal numeral [a] or [a.b] writes. *)
Definition decimalValue (s : string) : Q :=
  inject_Z (numeralValueFrom s 0) / pow10 (fractionLength s).

(** The pieces of a text put back together. *)
Fixpoint joinAll (parts : list string) : string :=
  match parts with
  | [] => ""
  | part :: rest => part ++ joinAll rest
  end.

(** A tokenized pattern: literal text and placeholders. *)
Inductive PatternItem :=
  | Literal (text : string)
  | Placeholder (name : string).

Definition renderItem (item : PatternItem) : string :=
  match item with
  | Literal text => text
  | Placeholder name => "{" ++ name ++ "}"
  end.

Fixpoint noOpeningBrace (s : string) : bool :=
  match s with
  | EmptyString => true
  | String c s' => negb (Ascii.eqb c "{") && noOpeningBrace s'
  end.

Fixpoint allWordChars (s : string) : bool :=
  match s with
  | EmptyString => true
  | String c s' => isWordChar c && allWordChars s'
  end.

(** Literals are non-empty, free of opening braces and never adjacent;
    placeholder names are non-empty words. *)
Fixpoint wellFormedItems (items : list PatternItem) : bool :=
  match items with
  | [] => true
  | Literal text :: rest =>
      negb (String.eqb text "") && noOpeningBrace text
      && match rest with
         | Literal _ :: _ => false
         | _ => true
         end
      && wellFormedItems rest
  | Placeholder name :: rest =>
      negb (String.eqb name "") && allWordChars name && wellFormedItems rest
  end.

(** The text that the state of [splitLoop] still holds after the literal:
    an opening brace and the word read since. *)
Definition openText (open : option string) : string :=
  match open with
  | None => ""
  | Some w => "{" ++ w
  end.

(** The placeholder names that the loop of [formatToParts] handles. *)
Definition knownTokens : list string :=
  [InternalSlotToken.number; InternalSlotToken.plusSign;
   InternalSlotToken.minusSign; InternalSlotToken.compactSymbol;
   InternalSlotToken.compactName; InternalSlotToken.scientificSeparator;
   InternalSlotToken.scientificExponent; InternalSlotToken.percentSign;
   InternalSlotToken.unitSymbol; InternalSlotToken.unitNarrowSymbol;
   InternalSlotToken.unitName; InternalSlotToken.currencyCode;
   InternalSlotToken.currencySymbol; InternalSlotToken.currencyNarrowSymbol;
   InternalSlotToken.currencyName].

(** No decimal point in the text. *)
Fixpoint noPoint (s : string) : bool :=
  match s with
  | EmptyString => true
  | String c s' => negb (Ascii.eqb c ".") && noPoint s'
  end.


Definition integer3 : UnifiedNumberFormat :=
  withOptions En.decimalFormat Style.decimal Notation.standard
    SignDisplay.auto RoundingType.fractionDigits 3 0 2.

Definition withUnit (nf : UnifiedNumberFormat) (st : Style.t) (u : string)
  (grouping : bool) : UnifiedNumberFormat := {|
  style := st;
  currency := currency nf;
  unit := u;
  unitDisplay := unitDisplay nf;
  roundingType := roundingType nf;
  notation := notation nf;
  compactDisplay := compactDisplay nf;
  signDisplay := signDisplay nf;
  useGrouping := grouping;
  minimumIntegerDigits := minimumIntegerDigits nf;
  minimumFractionDigits := minimumFractionDigits nf;
  maximumFractionDigits := maximumFractionDigits nf;
  minimumSignificantDigits := minimumSignificantDigits nf;
  maximumSignificantDigits := maximumSignificantDigits nf;
  ildData := ildData nf;
  numberingSystem := numberingSystem nf;
  pl := pl nf
|}.

(** A unit that the sample locale has no patterns for. *)
Definition furlongFormat : UnifiedNumberFormat :=
  withUnit En.decimalFormat Style.unit "furlong" true.

Definition ungrouped : UnifiedNumberFormat :=
  withUnit En.decimalFormat Style.decimal "" false.

(** A digit table for the numbering system [latn]. *)
Definition latnDigits : string -> option (list string) :=
  fun nu =>
    if String.eqb nu "latn"
    then Some ["0"; "1"; "2"; "3"; "4"; "5"; "6"; "7"; "8"; "9"]
    else None.

(** ** The arithmetic of the host *)

(** [toRawFixed], [toRawPrecision] and [formatNumberToString] above compute
    on exact rationals.  The host computes [*], [/], [Math.pow] and
    [Math.log] in binary64 and prints an integer through
    [Number.prototype.toString].  Below, the three functions are given
    again with these operations as parameters, so that a property can be
    stated of what the host computes, whatever it is.  Results are read on
    finite values.  [Math.floor] and [Math.ceil] are exact, and the test
    [exactSolve - roundDown < roundUp - exactSolve] on two binary64
    differences is decided as on the exact differences, so the rounding
    block is [roundExact] on the scaled value that the host has
    computed. *)
Record Host := {
  (** [x * y] *)
  h_mul : Q -> Q -> Q;
  (** [x / y] *)
  h_div : Q -> Q -> Q;
  (** [10 ** k], [Math.pow(10, k)] *)
  h_pow10 : Z -> Q;
  (** [Math.floor(Math.log(x) / Math.log(10))] *)
  h_log10Floor : Q -> Z;
  (** [n.toString()] on an integer *)
  h_toString : Z -> string
}.

Definition toRawFixedOn (H : Host) (x : Q) (minFraction maxFraction : Z)
  : RawNumberFormatResult :=
  let f := maxFraction in
  let n := roundExact (h_mul H x (h_pow10 H f)) in
  let xFinal := h_div H x (h_pow10 H f) in
  let m := if n =? 0 then "0" else h_toString H n in
  let '(m, int) :=
    if negb (f =? 0) then
      let k := JS.strlen m in
      let '(m, k) :=
        if k <=? f
        then (JS.repeat "0" (f + 1 - k) ++ m, f + 1)
        else (m, k) in
      let a := JS.slice m 0 (k - f) in
      let b := JS.sliceFrom m (k - f) in
      (a ++ "." ++ b, JS.strlen a)
    else (m, JS.strlen m) in
  let cut := maxFraction - minFraction in
  let m := trimZeros cut m in
  let m := trimPoint m in
  mkRaw m xFinal int.

Definition toRawPrecisionOn (H : Host) (x : Q)
  (minPrecision maxPrecision : Z) : RawNumberFormatResult :=
  let p := maxPrecision in
  let '(m, e, xFinal) :=
    if Qeq_bool x 0 then (JS.repeat "0" p, 0, 0%Q)
    else
      let e := h_log10Floor H x in
      let n := roundExact (h_div H x (h_pow10 H (e - p + 1))) in
      (h_toString H n, e, h_mul H (inject_Z n) (h_pow10 H (e - p + 1))) in
  let '(m, int) :=
    if e >=? p - 1 then (m ++ JS.repeat "0" (e - p + 1), e + 1)
    else if e >=? 0 then
      (JS.slice m 0 (e + 1) ++ "." ++ JS.sliceFrom m (e + 1), e + 1)
    else ("0." ++ JS.repeat "0" (- e - 1) ++ m, 1) in
  let m :=
    if (JS.indexOf m "." >=? 0) && (maxPrecision >? minPrecision)
    then trimPoint (trimZeros (maxPrecision - minPrecision) m)
    else m in
  mkRaw m xFinal int.

Definition roundMagnitudeOn (H : Host) (numberFormat : UnifiedNumberFormat)
  (x : Q) : RawNumberFormatResult :=
  match roundingType numberFormat with
  | RoundingType.significantDigits =>
      toRawPrecisionOn H x
        (minimumSignificantDigits numberFormat)
        (maximumSignificantDigits numberFormat)
  | RoundingType.fractionDigits =>
      toRawFixedOn H x
        (minimumFractionDigits numberFormat)
        (maximumFractionDigits numberFormat)
  | RoundingType.compactRounding =>
      let result := toRawFixedOn H x 0 0 in
      if integerDigitsCount result =? 1
      then toRawPrecisionOn H x 1 2
      else result
  end.

Definition formatNumberToStringOn (H : Host)
  (numberFormat : UnifiedNumberFormat) (x : finite) : FormatNumberResult :=
  let isNegative := ltZero x || isNegInfinity (reciprocal x) in
  let x := if isNegative then negate x else x in
  let result := roundMagnitudeOn H numberFormat (toQ x) in
  let x := Real (roundedNumber result) in
  let string := formattedString result in
  let int := integerDigitsCount result in
  let minInteger := minimumIntegerDigits numberFormat in
  let string :=
    if int <? minInteger
    then JS.repeat "0" (minInteger - int) ++ string
    else string in
  let x := if isNegative then negate x else x in
  mkFormatted x string.

(** The integers that the rounding block of [toRawFixed] and of
    [toRawPrecision] returns on the host. *)
Definition fixedInteger (H : Host) (x : Q) (maxFraction : Z) : Z :=
  roundExact (h_mul H x (h_pow10 H maxFraction)).

Definition precisionInteger (H : Host) (x : Q) (maxPrecision : Z) : Z :=
  roundExact
    (h_div H x (h_pow10 H (h_log10Floor H x - maxPrecision + 1))).

(** Exact arithmetic: the host of the functions above. *)
Definition exactHost : Host := {|
  h_mul := fun x y => Qred (x * y);
  h_div := fun x y => Qred (x / y);
  h_pow10 := pow10;
  h_log10Floor := floorLog10;
  h_toString := JS.toString
|}.

(** Binary64: the value nearest to [q], ties to the even significand, with
    53 bits above [2^-1022] and multiples of [2^-1074] below (overflow is
    left out). *)
Definition pow2 (k : Z) : Q := (2 # 1) ^ k.

Definition log2Floor (q : Q) : Z :=
  let e := Z.log2 (Qnum q) - Z.log2 (Zpos (Qden q)) in
  if Qle_bool (pow2 e) q then e else e - 1.

Definition roundHalfEven (y : Q) : Z :=
  let down := Qfloor y in
  match (y - inject_Z down ?= 1 # 2)%Q with
  | Lt => down
  | Gt => down + 1
  | Eq => if Z.even down then down else down + 1
  end.

Definition round64 (q : Q) : Q :=
  if Qeq_bool q 0 then 0%Q
  else
    let a := Qabs q in
    let e := Z.max (log2Floor a) (-1022) in
    let ulp := pow2 (e - 52) in
    let v := Qred (inject_Z (roundHalfEven (a / ulp)) * ulp) in
    if Qle_bool 0 q then v else Qred (- v).

(** The host with correctly rounded binary64 products, quotients and powers
    of ten (IEEE 754 requires it of [*] and [/]; [10^k] is a binary64
    value, hence exact, for [k] from 0 to 22), and the decimal numeral of
    an integer (what the host prints below [2^53]); the logarithm is left
    as a parameter. *)
Definition binary64 (log10Floor : Q -> Z) : Host := {|
  h_mul := fun x y => round64 (x * y);
  h_div := fun x y => round64 (x / y);
  h_pow10 := fun k => round64 (pow10 k);
  h_log10Floor := log10Floor;
  h_toString := JS.toString
|}.

(** * Properties *)

(** ** Strings *)

Section StringFacts.

Local Open Scope nat_scope.

Lemma append_nil_r (s : string) : (s ++ "")%string = s.
Proof. induction s as [|c s IH]; simpl; [reflexivity | now rewrite IH]. Qed.

Lemma append_assoc (s t u : string) :
  ((s ++ t) ++ u)%string = (s ++ (t ++ u))%string.
Proof. induction s as [|c s IH]; simpl; [reflexivity | now rewrite IH]. Qed.

Lemma length_append (s t : string) :
  String.length (s ++ t) = String.length s + String.length t.
Proof. induction s as [|c s IH]; simpl; [reflexivity | now rewrite IH]. Qed.

Lemma substring_0_0 (s : string) : substring 0 0 s = ""%string.
Proof. destruct s; reflexivity. Qed.

Lemma substring_prefix (t u : string) :
  substring 0 (String.length t) (t ++ u) = t.
Proof.
  induction t as [|c t IH]; simpl.
  - apply substring_0_0.
  - now rewrite IH.
Qed.

Lemma substring_suffix (t u : string) :
  substring (String.length t) (String.length u) (t ++ u) = u.
Proof.
  induction t as [|c t IH]; simpl.
  - rewrite <- (append_nil_r u) at 2. apply substring_prefix.
  - exact IH.
Qed.

Lemma substring_all (s : string) : substring 0 (String.length s) s = s.
Proof. rewrite <- (append_nil_r s) at 2. apply substring_prefix. Qed.

End StringFacts.

Lemma strlen_append (s t : string) :
  JS.strlen (s ++ t) = JS.strlen s + JS.strlen t.
Proof. unfold JS.strlen. rewrite length_append. lia. Qed.

Lemma strlen_nonneg (s : string) : 0 <= JS.strlen s.
Proof. unfold JS.strlen. lia. Qed.

Lemma strlen_cons (c : ascii) (s : string) :
  JS.strlen (String c s) = 1 + JS.strlen s.
Proof. unfold JS.strlen. simpl String.length. lia. Qed.

(** [slice(0, k)] and [slice(k)] cut a string in two. *)
Lemma slice_prefix (t u : string) :
  JS.slice (t ++ u) 0 (JS.strlen t) = t.
Proof.
  unfold JS.slice, JS.relIndex. rewrite strlen_append.
  pose proof (strlen_nonneg t). pose proof (strlen_nonneg u).
  destruct (0 <? 0) eqn:E0; [discriminate|].
  destruct (JS.strlen t <? 0) eqn:E1; [apply Z.ltb_lt in E1; lia|].
  rewrite Z.min_l by lia. rewrite Z.min_l by lia.
  rewrite Z.sub_0_r. unfold JS.strlen. rewrite Nat2Z.id. simpl Z.to_nat.
  apply substring_prefix.
Qed.

Lemma sliceFrom_suffix (t u : string) :
  JS.sliceFrom (t ++ u) (JS.strlen t) = u.
Proof.
  unfold JS.sliceFrom, JS.slice, JS.relIndex. rewrite strlen_append.
  pose proof (strlen_nonneg t). pose proof (strlen_nonneg u).
  destruct (JS.strlen t <? 0) eqn:E1; [apply Z.ltb_lt in E1; lia|].
  destruct (JS.strlen t + JS.strlen u <? 0) eqn:E2;
    [apply Z.ltb_lt in E2; lia|].
  rewrite Z.min_l by lia. rewrite Z.min_r by lia.
  replace (JS.strlen t + JS.strlen u - JS.strlen t) with (JS.strlen u) by lia.
  unfold JS.strlen. rewrite !Nat2Z.id.
  apply substring_suffix.
Qed.

Lemma slice_head (c : ascii) (s : string) :
  JS.slice (String c s) 0 1 = String c "".
Proof. exact (slice_prefix (String c "") s). Qed.

Lemma sliceFrom_tail (c : ascii) (s : string) :
  JS.sliceFrom (String c s) 1 = s.
Proof. exact (sliceFrom_suffix (String c "") s). Qed.

(** Cutting a string at [k]. *)
Lemma string_split (s : string) (k : nat) :
  (k <= String.length s)%nat ->
  exists a b, s = (a ++ b)%string /\ String.length a = k.
Proof.
  revert k. induction s as [|c s IH]; intros k Hk.
  - exists "", "". split; [reflexivity|]. simpl in *. lia.
  - destruct k as [|k].
    + exists "", (String c s). split; reflexivity.
    + destruct (IH k) as (a & b & -> & Hlen); [simpl in Hk; lia|].
      exists (String c a), b. split; [reflexivity|]. simpl. now rewrite Hlen.
Qed.

Lemma slice_split (s : string) (k : Z) :
  0 <= k <= JS.strlen s ->
  exists a b, s = (a ++ b)%string /\ JS.strlen a = k /\
              JS.slice s 0 k = a /\ JS.sliceFrom s k = b.
Proof.
  intros Hk.
  destruct (string_split s (Z.to_nat k)) as (a & b & -> & Hlen).
  { unfold JS.strlen in Hk. lia. }
  assert (Ha : JS.strlen a = k) by (unfold JS.strlen; lia).
  exists a, b. split; [reflexivity|]. split; [exact Ha|].
  rewrite <- Ha. split; [apply slice_prefix | apply sliceFrom_suffix].
Qed.

(** [m.slice(0, -1)] drops the last character. *)
Lemma slice_dropLast (t : string) (c : ascii) :
  JS.slice (t ++ String c "") 0 (-1) = t.
Proof.
  unfold JS.slice, JS.relIndex. rewrite strlen_append.
  pose proof (strlen_nonneg t).
  change (JS.strlen (String c "")) with 1.
  destruct (0 <? 0) eqn:E0; [discriminate|].
  destruct (-1 <? 0) eqn:E1; [|discriminate].
  rewrite Z.min_l by lia. rewrite Z.max_l by lia.
  replace (JS.strlen t + 1 + -1 - 0) with (JS.strlen t) by lia.
  unfold JS.strlen. rewrite Nat2Z.id. simpl Z.to_nat.
  apply substring_prefix.
Qed.

(** Every non-empty string ends with some character. *)
Lemma string_snoc (s : string) :
  s <> "" -> exists t c, s = (t ++ String c "")%string.
Proof.
  induction s as [|a s IH]; [congruence|]. intros _.
  destruct s as [|b s].
  - exists "", a. reflexivity.
  - destruct IH as (t & c & E); [discriminate|].
    exists (String a t), c. simpl. now rewrite <- E.
Qed.

Lemma dropLast_cons (a : ascii) (u : string) :
  u <> "" -> JS.slice (String a u) 0 (-1) = String a (JS.slice u 0 (-1)).
Proof.
  intros H. destruct (string_snoc u H) as (t & c & ->).
  change (String a (t ++ String c "")) with (String a t ++ String c "").
  now rewrite !slice_dropLast.
Qed.

Lemma endsWith_nil (c : ascii) : JS.endsWith "" c = false.
Proof. reflexivity. Qed.

Lemma endsWith_snoc (t : string) (c d : ascii) :
  JS.endsWith (t ++ String c "") d = Ascii.eqb c d.
Proof.
  induction t as [|a t IH]; simpl; [reflexivity|].
  rewrite IH. destruct (t ++ String c "")%string eqn:E; [|reflexivity].
  destruct t; discriminate.
Qed.

Lemma endsWith_cons (a c : ascii) (u : string) :
  u <> "" -> JS.endsWith (String a u) c = JS.endsWith u c.
Proof. intros H. destruct u; [congruence | reflexivity]. Qed.

Lemma endsWith_append (t u : string) (c : ascii) :
  u <> "" -> JS.endsWith (t ++ u) c = JS.endsWith u c.
Proof.
  intros Hu. induction t as [|a t IH]; [reflexivity|].
  cbn [append]. rewrite endsWith_cons; [exact IH|].
  destruct t; [exact Hu | discriminate].
Qed.

Lemma repeatNat_snoc (c : ascii) (k : nat) :
  JS.repeatNat (String c "") (S k)
  = (JS.repeatNat (String c "") k ++ String c "")%string.
Proof.
  induction k as [|k IH]; [reflexivity|].
  change (String c (JS.repeatNat (String c "") (S k))
          = String c (JS.repeatNat (String c "") k ++ String c "")).
  f_equal. exact IH.
Qed.

Lemma repeat_succ (c : ascii) (k : Z) :
  0 <= k ->
  JS.repeat (String c "") (k + 1) = String c (JS.repeat (String c "") k).
Proof.
  intros Hk. unfold JS.repeat.
  replace (Z.to_nat (k + 1)) with (S (Z.to_nat k)) by lia. reflexivity.
Qed.

Lemma repeat_nonpos (s : string) (k : Z) : k <= 0 -> JS.repeat s k = "".
Proof.
  intros Hk. unfold JS.repeat.
  replace (Z.to_nat k) with O by lia. reflexivity.
Qed.

(** ** Digits of a string *)

Lemma digitCount_append (s t : string) :
  digitCount (s ++ t) = digitCount s + digitCount t.
Proof. induction s as [|c s IH]; simpl; [reflexivity | rewrite IH; lia]. Qed.

Lemma nonZeroDigitCount_append (s t : string) :
  nonZeroDigitCount (s ++ t) = nonZeroDigitCount s + nonZeroDigitCount t.
Proof. induction s as [|c s IH]; simpl; [reflexivity | rewrite IH; lia]. Qed.

(** Digit counts through the trimming. *)
Lemma digitCount_nonneg (s : string) : 0 <= digitCount s.
Proof.
  induction s as [|c s IH]; cbn [digitCount]; [lia|].
  destruct (isDigit c); lia.
Qed.

Lemma digitCount_repeatNat (j : nat) :
  digitCount (JS.repeatNat "0" j) = Z.of_nat j.
Proof.
  induction j as [|j IH]; [reflexivity|].
  change (JS.repeatNat "0" (S j)) with (String "0" (JS.repeatNat "0" j)).
  change (digitCount (String "0" (JS.repeatNat "0" j)))
    with (1 + digitCount (JS.repeatNat "0" j)).
  rewrite IH. lia.
Qed.

Lemma digitCount_zeros (k : Z) :
  0 <= k -> digitCount (JS.repeat "0" k) = k.
Proof.
  intros Hk. unfold JS.repeat. rewrite digitCount_repeatNat. lia.
Qed.

Lemma nonZeroDigitCount_zeros (k : Z) :
  nonZeroDigitCount (JS.repeat "0" k) = 0.
Proof.
  unfold JS.repeat. induction (Z.to_nat k) as [|j IH]; [reflexivity|].
  change (JS.repeatNat "0" (S j)) with (String "0" (JS.repeatNat "0" j)).
  simpl nonZeroDigitCount. rewrite IH. reflexivity.
Qed.

Lemma allDigits_append (s t : string) :
  allDigits (s ++ t) = allDigits s && allDigits t.
Proof.
  induction s as [|c s IH]; simpl; [reflexivity|].
  rewrite IH. apply andb_assoc.
Qed.

Lemma allDigits_zeros (k : Z) : allDigits (JS.repeat "0" k) = true.
Proof.
  unfold JS.repeat. induction (Z.to_nat k) as [|j IH]; [reflexivity|].
  change (JS.repeatNat "0" (S j)) with (String "0" (JS.repeatNat "0" j)).
  cbn [allDigits]. rewrite IH. reflexivity.
Qed.

Lemma onlyZerosAndPoint_zeros (k : Z) :
  onlyZerosAndPoint (JS.repeat "0" k) = true.
Proof.
  unfold JS.repeat. induction (Z.to_nat k) as [|j IH]; [reflexivity|].
  change (JS.repeatNat "0" (S j)) with (String "0" (JS.repeatNat "0" j)).
  cbn [onlyZerosAndPoint]. rewrite IH. reflexivity.
Qed.

Lemma isDigit_not_point (c : ascii) :
  isDigit c = true -> Ascii.eqb c "." = false.
Proof.
  intros H. destruct (Ascii.eqb_spec c "."%char) as [->|]; [|reflexivity].
  vm_compute in H. discriminate.
Qed.

Lemma endsWith_allDigits (d : string) :
  allDigits d = true -> JS.endsWith d "." = false.
Proof.
  induction d as [|c d IH]; [reflexivity|].
  cbn [allDigits]. intros H. apply andb_true_iff in H. destruct H as [Hc Hd].
  cbn [JS.endsWith]. destruct d; [now apply isDigit_not_point | now apply IH].
Qed.

Lemma indexOfFrom_allDigits (d : string) (i : Z) :
  allDigits d = true -> JS.indexOfFrom d "." i = -1.
Proof.
  revert i. induction d as [|c d IH]; intros i; [reflexivity|].
  cbn [allDigits]. intros H. apply andb_true_iff in H. destruct H as [Hc Hd].
  cbn [JS.indexOfFrom]. rewrite (isDigit_not_point c Hc). now apply IH.
Qed.

Lemma digitCount_allDigits (d : string) :
  allDigits d = true -> digitCount d = JS.strlen d.
Proof.
  induction d as [|c d IH]; [reflexivity|].
  cbn [allDigits]. intros H. apply andb_true_iff in H. destruct H as [Hc Hd].
  cbn [digitCount]. rewrite Hc, strlen_cons, IH by exact Hd. reflexivity.
Qed.

Lemma indexOfFrom_shift (s : string) (c : ascii) (i : Z) :
  JS.indexOfFrom s c i =
    if JS.indexOfFrom s c 0 <? 0 then -1 else i + JS.indexOfFrom s c 0.
Proof.
  revert i. induction s as [|a s IH]; intros i; [reflexivity|].
  cbn [JS.indexOfFrom]. destruct (Ascii.eqb a c).
  - cbn. f_equal. lia.
  - rewrite (IH (i + 1)), (IH (0 + 1)).
    destruct (JS.indexOfFrom s c 0 <? 0) eqn:E; [reflexivity|].
    apply Z.ltb_ge in E.
    destruct (0 + 1 + JS.indexOfFrom s c 0 <? 0) eqn:E';
      [apply Z.ltb_lt in E'; lia | lia].
Qed.

Lemma indexOfFrom_point (a r : string) (i : Z) :
  allDigits a = true ->
  JS.indexOfFrom (a ++ String "." r) "." i = i + JS.strlen a.
Proof.
  revert i. induction a as [|c a IH]; intros i Ha.
  - cbn. lia.
  - cbn [allDigits] in Ha. apply andb_true_iff in Ha. destruct Ha as [Hc Ha].
    cbn [append JS.indexOfFrom]. rewrite (isDigit_not_point c Hc).
    rewrite IH by exact Ha. rewrite strlen_cons. lia.
Qed.

Lemma integerPartLength_digits (a : string) :
  allDigits a = true -> integerPartLength a = JS.strlen a.
Proof.
  intros Ha. unfold integerPartLength, JS.indexOf.
  rewrite indexOfFrom_allDigits by exact Ha. reflexivity.
Qed.

Lemma integerPartLength_point (a r : string) :
  allDigits a = true -> integerPartLength (a ++ String "." r) = JS.strlen a.
Proof.
  intros Ha. unfold integerPartLength, JS.indexOf.
  rewrite indexOfFrom_point by exact Ha.
  pose proof (strlen_nonneg a).
  destruct (0 + JS.strlen a <? 0) eqn:E; [apply Z.ltb_lt in E; lia | lia].
Qed.

Lemma integerPartLength_cons_zero (t : string) :
  integerPartLength (String "0" t) = 1 + integerPartLength t.
Proof.
  unfold integerPartLength, JS.indexOf.
  cbn [JS.indexOfFrom]. change (Ascii.eqb "0" ".") with false. cbv iota.
  rewrite strlen_cons, indexOfFrom_shift.
  destruct (JS.indexOfFrom t "." 0 <? 0) eqn:E.
  - reflexivity.
  - apply Z.ltb_ge in E.
    destruct (0 + 1 + JS.indexOfFrom t "." 0 <? 0) eqn:E';
      [apply Z.ltb_lt in E'; lia | lia].
Qed.

Lemma integerPartLength_zeros (k : nat) (s : string) :
  integerPartLength (JS.repeatNat "0" k ++ s)
  = Z.of_nat k + integerPartLength s.
Proof.
  induction k as [|k IH]; [cbn [JS.repeatNat append]; lia|].
  change (JS.repeatNat "0" (S k) ++ s)%string
    with (String "0" (JS.repeatNat "0" k ++ s)).
  rewrite integerPartLength_cons_zero, IH. lia.
Qed.

Lemma significantDigitCount_prefix (pre : string) (c : ascii) (post : string) :
  onlyZerosAndPoint pre = true -> isDigit c = true -> c <> "0"%char ->
  significantDigitCount (pre ++ String c post) = 1 + digitCount post.
Proof.
  intros Hpre Hd Hc. induction pre as [|a pre IH]; cbn [append].
  - cbn [significantDigitCount].
    destruct (Ascii.eqb_spec c "0"%char); [contradiction|].
    rewrite (isDigit_not_point c Hd). cbn [orb digitCount]. now rewrite Hd.
  - cbn [onlyZerosAndPoint] in Hpre. apply andb_true_iff in Hpre.
    destruct Hpre as [Ha Hpre]. cbn [significantDigitCount]. rewrite Ha.
    now apply IH.
Qed.

(** ** Decimal numerals *)

Lemma digitChar_digit (d : Z) :
  0 <= d < 10 ->
  isDigit (JS.digitChar d) = true /\ (d <> 0 -> JS.digitChar d <> "0"%char).
Proof.
  intros H.
  assert (E : d = 0 \/ d = 1 \/ d = 2 \/ d = 3 \/ d = 4 \/ d = 5 \/ d = 6
              \/ d = 7 \/ d = 8 \/ d = 9) by lia.
  repeat (destruct E as [->|E]); try subst d;
    (split; [vm_compute; reflexivity
            | intros Hd; try lia; vm_compute; discriminate]).
Qed.

Lemma digitsFuel_numeral (fuel : nat) :
  forall n acc, 0 <= n < 2 ^ Z.of_nat fuel -> (1 <= fuel)%nat ->
  exists d, JS.digitsFuel fuel n acc = (d ++ acc)%string /\ isNumeral d n.
Proof.
  induction fuel as [|fuel IH]; intros n acc Hn Hf; [lia|].
  cbn [JS.digitsFuel].
  assert (Hmod : 0 <= n mod 10 < 10) by (apply Z.mod_pos_bound; lia).
  destruct (digitChar_digit (n mod 10) Hmod) as [Hdig Hnz].
  destruct (n <? 10) eqn:E.
  - apply Z.ltb_lt in E.
    exists (String (JS.digitChar (n mod 10)) ""). split; [reflexivity|].
    unfold isNumeral.
    change (JS.strlen (String (JS.digitChar (n mod 10)) "")) with 1.
    cbn [allDigits]. rewrite Hdig.
    change (1 - 1) with 0. change (10 ^ 0) with 1. change (10 ^ 1) with 10.
    split; [reflexivity|]. split; [lia|]. split; [lia|].
    intros Hpos. split; [lia|].
    eexists _, _. split; [reflexivity|]. apply Hnz.
    rewrite Z.mod_small by lia. lia.
  - apply Z.ltb_ge in E.
    assert (Hpow : 2 ^ Z.of_nat (S fuel) = 2 * 2 ^ Z.of_nat fuel).
    { rewrite Nat2Z.inj_succ, Z.pow_succ_r by lia. reflexivity. }
    assert (Hdiv : 0 <= n / 10 < 2 ^ Z.of_nat fuel).
    { split; [apply Z.div_pos; lia|].
      apply Z.div_lt_upper_bound; lia. }
    assert (Hdiv1 : 1 <= n / 10) by (apply Z.div_le_lower_bound; lia).
    assert (Hfuel : (1 <= fuel)%nat).
    { destruct fuel; [|lia]. change (2 ^ Z.of_nat 0) with 1 in Hdiv. lia. }
    destruct (IH (n / 10) (String (JS.digitChar (n mod 10)) acc) Hdiv Hfuel)
      as (d & Hd & Hall & Hlen & Hub & Hlb).
    destruct (Hlb ltac:(lia)) as (Hlb' & c & d' & Hc & Hcz).
    exists (d ++ String (JS.digitChar (n mod 10)) "")%string. split.
    { rewrite Hd, append_assoc. reflexivity. }
    unfold isNumeral. rewrite allDigits_append, strlen_append.
    change (JS.strlen (String (JS.digitChar (n mod 10)) "")) with 1.
    cbn [allDigits]. rewrite Hall, Hdig.
    replace (JS.strlen d + 1 - 1) with (JS.strlen d) by lia.
    rewrite Z.pow_add_r, Z.pow_1_r by lia.
    pose proof (Z.div_mod n 10 ltac:(lia)) as Hdm.
    split; [reflexivity|]. split; [lia|]. split; [lia|].
    intros _. split.
    + replace (JS.strlen d) with (1 + (JS.strlen d - 1)) at 1 by lia.
      rewrite Z.pow_add_r, Z.pow_1_r by lia. lia.
    + exists c, (d' ++ String (JS.digitChar (n mod 10)) "")%string.
      split; [rewrite Hc; reflexivity | exact Hcz].
Qed.

Lemma digits_numeral (n : Z) : 0 <= n -> isNumeral (JS.digits n) n.
Proof.
  intros Hn. unfold JS.digits.
  destruct (digitsFuel_numeral (S (Z.to_nat (Z.log2 n))) n "")
    as (d & Hd & Hnum).
  - split; [exact Hn|].
    rewrite Nat2Z.inj_succ, Z2Nat.id by apply Z.log2_nonneg.
    destruct (Z.eq_dec n 0) as [->|Hnz]; [reflexivity|].
    apply Z.log2_spec. lia.
  - lia.
  - rewrite Hd, append_nil_r. exact Hnum.
Qed.

Lemma toString_nonneg (n : Z) : 0 <= n -> JS.toString n = JS.digits n.
Proof.
  intros H. unfold JS.toString.
  destruct (n <? 0) eqn:E; [apply Z.ltb_lt in E; lia | reflexivity].
Qed.

(** The numeral of an integer with [p] digits, or [p + 1] after a carry. *)
Lemma numeral_length (d : string) (n p : Z) :
  isNumeral d n -> 1 <= p -> 10 ^ (p - 1) <= n ->
  p <= JS.strlen d /\ (n < 10 ^ p -> JS.strlen d <= p).
Proof.
  intros (_ & Hlen & Hub & Hlb) Hp Hn.
  assert (Hpos : 0 < n).
  { apply Z.lt_le_trans with (10 ^ (p - 1)); [|exact Hn].
    apply Z.pow_pos_nonneg; lia. }
  destruct (Hlb Hpos) as [Hlb' _].
  split.
  - assert (H : p - 1 < JS.strlen d).
    { apply (Z.pow_lt_mono_r_iff 10); [lia | lia | lia]. }
    lia.
  - intros Hnp.
    assert (H : JS.strlen d - 1 < p).
    { apply (Z.pow_lt_mono_r_iff 10); [lia | lia | lia]. }
    lia.
Qed.

Lemma numeral_head (d : string) (n : Z) :
  isNumeral d n -> 0 < n ->
  exists c d', d = String c d' /\ isDigit c = true /\ c <> "0"%char /\
               digitCount d' = JS.strlen d - 1.
Proof.
  intros (Hall & Hlen & Hub & Hlb) Hn.
  destruct (Hlb Hn) as (_ & c & d' & -> & Hc).
  exists c, d'. split; [reflexivity|].
  pose proof (digitCount_allDigits _ Hall) as Hcount.
  cbn [allDigits] in Hall. apply andb_true_iff in Hall. destruct Hall as [Hd _].
  split; [exact Hd|]. split; [exact Hc|].
  cbn [digitCount] in Hcount. rewrite Hd in Hcount. lia.
Qed.

(** ** Trimming *)

(** The trimming loop removes exactly [k] of at least [k] trailing zeros. *)
Lemma trimLoop_zeros (k j : nat) (s : string) :
  trimLoop k (s ++ JS.repeatNat "0" (k + j)) = (s ++ JS.repeatNat "0" j)%string.
Proof.
  induction k as [|k IH]; [reflexivity|].
  replace (S k + j)%nat with (S (k + j)) by lia.
  rewrite repeatNat_snoc, <- append_assoc.
  simpl trimLoop. rewrite endsWith_snoc, slice_dropLast.
  exact IH.
Qed.

Lemma trimZeros_zeros (cut k : Z) (s : string) :
  0 <= cut <= k ->
  trimZeros cut (s ++ JS.repeat "0" k) = (s ++ JS.repeat "0" (k - cut))%string.
Proof.
  intros H. unfold trimZeros, JS.repeat.
  replace (Z.to_nat k) with (Z.to_nat cut + Z.to_nat (k - cut))%nat by lia.
  apply trimLoop_zeros.
Qed.

Lemma trimLoop_nil (fuel : nat) : trimLoop fuel "" = "".
Proof. destruct fuel; reflexivity. Qed.

(** Trimming never removes a character other than ["0"], so it stops at the
    first significant digit at the latest. *)
Lemma trimLoop_head (fuel : nat) :
  forall (c : ascii) (post : string),
  c <> "0"%char ->
  trimLoop fuel (String c post) = String c (trimLoop fuel post).
Proof.
  induction fuel as [|fuel IH]; intros c post Hc; [reflexivity|].
  cbn [trimLoop]. destruct post as [|b post].
  - cbn [JS.endsWith]. destruct (Ascii.eqb_spec c "0"%char); [contradiction|].
    reflexivity.
  - rewrite endsWith_cons by discriminate.
    destruct (JS.endsWith (String b post) "0"); [|reflexivity].
    rewrite dropLast_cons by discriminate. now apply IH.
Qed.

Lemma trimLoop_cons (fuel : nat) :
  forall (a : ascii) (u : string),
  trimLoop fuel u <> "" ->
  trimLoop fuel (String a u) = String a (trimLoop fuel u).
Proof.
  induction fuel as [|fuel IH]; intros a u Hu; [reflexivity|].
  assert (Hne : u <> "") by (intros ->; now rewrite trimLoop_nil in Hu).
  cbn [trimLoop] in *. rewrite endsWith_cons by exact Hne.
  destruct (JS.endsWith u "0"); [|reflexivity].
  rewrite dropLast_cons by exact Hne. now apply IH.
Qed.

Lemma trimLoop_prefix (fuel : nat) (pre : string) (c : ascii) (post : string) :
  c <> "0"%char ->
  trimLoop fuel (pre ++ String c post)
  = (pre ++ String c (trimLoop fuel post))%string.
Proof.
  intros Hc. induction pre as [|a pre IH]; cbn [append].
  - now apply trimLoop_head.
  - rewrite trimLoop_cons; rewrite IH; [reflexivity|].
    destruct pre; discriminate.
Qed.

Lemma trimZeros_prefix (cut : Z) (pre : string) (c : ascii) (post : string) :
  c <> "0"%char ->
  trimZeros cut (pre ++ String c post)
  = (pre ++ String c (trimZeros cut post))%string.
Proof. intros Hc. unfold trimZeros. now apply trimLoop_prefix. Qed.

Lemma trimPoint_head (c : ascii) (post : string) :
  c <> "."%char -> trimPoint (String c post) = String c (trimPoint post).
Proof.
  intros Hc. unfold trimPoint. destruct post as [|b post].
  - cbn [JS.endsWith]. destruct (Ascii.eqb_spec c "."%char); [contradiction|].
    reflexivity.
  - rewrite endsWith_cons by discriminate.
    destruct (JS.endsWith (String b post) "."); [|reflexivity].
    now rewrite dropLast_cons by discriminate.
Qed.

Lemma trimPoint_cons (a : ascii) (u : string) :
  trimPoint u <> "" -> trimPoint (String a u) = String a (trimPoint u).
Proof.
  intros Hu. assert (Hne : u <> "") by (intros ->; now apply Hu).
  unfold trimPoint in *. rewrite endsWith_cons by exact Hne.
  destruct (JS.endsWith u "."); [|reflexivity].
  now rewrite dropLast_cons by exact Hne.
Qed.

Lemma trimPoint_prefix (pre : string) (c : ascii) (post : string) :
  c <> "."%char ->
  trimPoint (pre ++ String c post) = (pre ++ String c (trimPoint post))%string.
Proof.
  intros Hc. induction pre as [|a pre IH]; cbn [append].
  - now apply trimPoint_head.
  - rewrite trimPoint_cons; rewrite IH; [reflexivity|].
    destruct pre; discriminate.
Qed.

Lemma digitCount_trimLoop (fuel : nat) :
  forall s : string,
  digitCount s - Z.of_nat fuel <= digitCount (trimLoop fuel s) <= digitCount s.
Proof.
  induction fuel as [|fuel IH]; intros s; [cbn [trimLoop]; lia|].
  cbn [trimLoop]. destruct (JS.endsWith s "0") eqn:E.
  - assert (Hne : s <> "") by (intros ->; discriminate).
    destruct (string_snoc s Hne) as (t & c & ->).
    rewrite endsWith_snoc in E. apply Ascii.eqb_eq in E. subst c.
    rewrite slice_dropLast, digitCount_append.
    specialize (IH t). change (digitCount "0") with 1. lia.
  - lia.
Qed.

Lemma digitCount_trimPoint (s : string) :
  digitCount (trimPoint s) = digitCount s.
Proof.
  unfold trimPoint. destruct (JS.endsWith s ".") eqn:E; [|reflexivity].
  assert (Hne : s <> "") by (intros ->; discriminate).
  destruct (string_snoc s Hne) as (t & c & ->).
  rewrite endsWith_snoc in E. apply Ascii.eqb_eq in E. subst c.
  rewrite slice_dropLast, digitCount_append.
  change (digitCount ".") with 0. lia.
Qed.

Lemma allDigits_trimLoop (fuel : nat) :
  forall s, allDigits s = true -> allDigits (trimLoop fuel s) = true.
Proof.
  induction fuel as [|fuel IH]; intros s Hs; [exact Hs|].
  cbn [trimLoop]. destruct (JS.endsWith s "0") eqn:E; [|exact Hs].
  assert (Hne : s <> "") by (intros ->; discriminate).
  destruct (string_snoc s Hne) as (t & c & ->).
  rewrite slice_dropLast. apply IH.
  rewrite allDigits_append in Hs. apply andb_true_iff in Hs. tauto.
Qed.

Lemma trimmed_shape (b : bool) (cut : Z) (pre : string) (c : ascii)
  (post : string) :
  0 <= cut -> isDigit c = true -> c <> "0"%char ->
  exists post',
    (if b then trimPoint (trimZeros cut (pre ++ String c post))
     else (pre ++ String c post)%string)
    = (pre ++ String c post')%string /\
    digitCount post - cut <= digitCount post' <= digitCount post.
Proof.
  intros Hcut Hd Hc. destruct b.
  - exists (trimPoint (trimZeros cut post)). split.
    + rewrite trimZeros_prefix by exact Hc.
      apply trimPoint_prefix. intros ->. vm_compute in Hd. discriminate.
    + rewrite digitCount_trimPoint. unfold trimZeros.
      pose proof (digitCount_trimLoop (Z.to_nat cut) post). lia.
  - exists post. split; [reflexivity | lia].
Qed.

(** The fraction of [a.b] after the trimming of [toRawFixed]. *)
Lemma trimmed_fraction (cut : Z) (a b : string) :
  allDigits a = true -> allDigits b = true ->
  integerPartLength (trimPoint (trimZeros cut (a ++ "." ++ b))) = JS.strlen a.
Proof.
  intros Ha Hb.
  change (a ++ "." ++ b)%string with (a ++ String "." b)%string.
  rewrite trimZeros_prefix by discriminate.
  pose proof (allDigits_trimLoop (Z.to_nat cut) b Hb) as Hb'.
  fold (trimZeros cut b) in Hb'.
  destruct (trimZeros cut b) as [|c b'] eqn:E.
  - unfold trimPoint. rewrite endsWith_snoc, slice_dropLast.
    now apply integerPartLength_digits.
  - unfold trimPoint.
    change (a ++ String "." (String c b'))%string
      with (a ++ (String "." (String c b')))%string.
    rewrite endsWith_append by discriminate.
    rewrite endsWith_cons by discriminate.
    rewrite (endsWith_allDigits _ Hb').
    now apply integerPartLength_point.
Qed.

(** ** Rounding to the nearest integer *)

Lemma Qlt_bool_iff (x y : Q) : Qlt_bool x y = true <-> (x < y)%Q.
Proof.
  unfold Qlt_bool. rewrite negb_true_iff.
  split.
  - intros H. apply Qnot_le_lt. intros Hle.
    apply Qle_bool_iff in Hle. congruence.
  - intros H. destruct (Qle_bool y x) eqn:E; [|reflexivity].
    apply Qle_bool_iff in E. apply Qlt_not_le in H. contradiction.
Qed.

Lemma Qlt_bool_false_iff (x y : Q) : Qlt_bool x y = false <-> (y <= x)%Q.
Proof.
  unfold Qlt_bool. rewrite negb_false_iff. apply Qle_bool_iff.
Qed.

Lemma Qlt_bool_comp (x x' y y' : Q) :
  (x == x')%Q -> (y == y')%Q -> Qlt_bool x y = Qlt_bool x' y'.
Proof.
  intros Hx Hy. unfold Qlt_bool. now rewrite Hx, Hy.
Qed.

Lemma ceiling_le_floor_succ (y : Q) : Qceiling y <= Qfloor y + 1.
Proof.
  pose proof (Qceiling_lt y) as H1. pose proof (Qlt_floor y) as H2.
  assert (H : (inject_Z (Qceiling y - 1) < inject_Z (Qfloor y + 1))%Q)
    by (eapply Qlt_trans; eassumption).
  rewrite <- Zlt_Qlt in H. lia.
Qed.

Lemma roundExact_nearest (y : Q) : nearestHalfUp y (roundExact y).
Proof.
  unfold nearestHalfUp, roundExact.
  pose proof (Qfloor_le y) as Hfl. pose proof (Qle_ceiling y) as Hcl.
  pose proof (ceiling_le_floor_succ y) as Hcf.
  pose proof (Qle_floor_ceiling y) as Hfc.
  rewrite Zle_Qle in Hcf. rewrite inject_Z_plus in Hcf.
  change (inject_Z 1) with 1%Q in Hcf.

  destruct (Qlt_bool _ _) eqn:E.
  - apply Qlt_bool_iff in E. left. apply Qabs_Qlt_condition. split; lra.
  - apply Qlt_bool_false_iff in E.
    destruct (Qlt_le_dec (inject_Z (Qceiling y) - y) (1 # 2)) as [Hlt|Hge].
    + left. apply Qabs_Qlt_condition. split; lra.
    + right. lra.
Qed.


Lemma roundExact_comp (x y : Q) : (x == y)%Q -> roundExact x = roundExact y.
Proof.
  intros H. unfold roundExact.
  rewrite (Qfloor_comp _ _ H), (Qceiling_comp _ _ H).
  rewrite (Qlt_bool_comp (x - inject_Z (Qfloor y)) (y - inject_Z (Qfloor y))
             (inject_Z (Qceiling y) - x) (inject_Z (Qceiling y) - y))
    by (rewrite H; reflexivity).
  reflexivity.
Qed.

Lemma Qfloor_nonneg (x : Q) : (0 <= x)%Q -> 0 <= Qfloor x.
Proof. intros H. apply (Qfloor_resp_le 0 x H). Qed.

Lemma roundExact_nonneg (x : Q) : (0 <= x)%Q -> 0 <= roundExact x.
Proof.
  intros H. unfold roundExact.
  pose proof (Qfloor_nonneg x H) as Hf.
  pose proof (Qle_floor_ceiling x) as Hfc. rewrite <- Zle_Qle in Hfc.
  destruct (Qlt_bool _ _); lia.
Qed.

Lemma roundExact_between (y : Q) (lo hi : Z) :
  (inject_Z lo <= y)%Q -> (y <= inject_Z hi)%Q ->
  lo <= roundExact y <= hi.
Proof.
  intros Hlo Hhi.
  pose proof (Qfloor_resp_le _ _ Hlo) as H1. rewrite Qfloor_Z in H1.
  pose proof (Qceiling_resp_le _ _ Hhi) as H2. rewrite Qceiling_Z in H2.
  pose proof (Qle_floor_ceiling y) as H3. rewrite <- Zle_Qle in H3.
  unfold roundExact. destruct (Qlt_bool _ _); lia.
Qed.

(** ** Powers of ten and the decimal magnitude *)

Lemma pow10_pos (k : Z) : (0 < pow10 k)%Q.
Proof. apply Qpower_0_lt. reflexivity. Qed.

Lemma pow10_plus (a b : Z) : (pow10 (a + b) == pow10 a * pow10 b)%Q.
Proof. apply Qpower_plus. discriminate. Qed.

Lemma pow10_opp (k : Z) : (pow10 (- k) == / pow10 k)%Q.
Proof. apply Qpower_opp. Qed.

Lemma pow10_Z (k : Z) : 0 <= k -> (pow10 k == inject_Z (10 ^ k))%Q.
Proof. intros H. symmetry. exact (Zpower_Qpower 10 k H). Qed.

Lemma pow10_lt_inv (a b : Z) : (pow10 a < pow10 b)%Q -> a < b.
Proof.
  intros H. apply (Qpower_lt_compat_l_inv (10 # 1)); [exact H | reflexivity].
Qed.

Lemma pow10_le (a b : Z) : a <= b -> (pow10 a <= pow10 b)%Q.
Proof. intros H. apply Qpower_le_compat_l; [exact H | discriminate]. Qed.

Lemma floorLog10_spec (x : Q) :
  (0 < x)%Q ->
  (pow10 (floorLog10 x) <= x)%Q /\ (x < pow10 (floorLog10 x + 1))%Q.
Proof.
  intros Hx. unfold floorLog10.
  destruct (Qle_bool 1 x) eqn:E.
  - apply Qle_bool_iff in E.
    assert (Hf : 1 <= Qfloor x) by exact (Qfloor_resp_le 1 x E).
    destruct (digits_numeral (Qfloor x) ltac:(lia)) as (_ & Hlen & Hub & Hlb).
    destruct (Hlb ltac:(lia)) as [Hlb' _].
    set (L := JS.strlen (JS.digits (Qfloor x))) in *.
    replace (L - 1 + 1) with L by lia.
    rewrite !pow10_Z by lia.
    pose proof (Qfloor_le x) as H1. pose proof (Qlt_floor x) as H2.
    split.
    + apply Qle_trans with (inject_Z (Qfloor x)); [|exact H1].
      rewrite <- Zle_Qle. exact Hlb'.
    + apply Qlt_le_trans with (inject_Z (Qfloor x + 1)); [exact H2|].
      rewrite <- Zle_Qle. lia.
  - assert (Hlt : (x < 1)%Q).
    { apply Qnot_le_lt. intros H. apply Qle_bool_iff in H. congruence. }
    assert (Hinv : (1 < / x)%Q).
    { apply Qlt_shift_inv_l; [exact Hx|]. lra. }
    pose proof (Qle_ceiling (/ x)) as H1. pose proof (Qceiling_lt (/ x)) as H2.
    set (c := Qceiling (/ x)) in *.
    assert (Hc : 2 <= c).
    { assert (H : (inject_Z 1 < inject_Z c)%Q).
      { change (inject_Z 1) with 1%Q. lra. }
      rewrite <- Zlt_Qlt in H. lia. }
    destruct (digits_numeral (c - 1) ltac:(lia)) as (_ & Hlen & Hub & Hlb).
    destruct (Hlb ltac:(lia)) as [Hlb' _].
    set (k := JS.strlen (JS.digits (c - 1))) in *.
    replace (- k + 1) with (- (k - 1)) by lia.
    rewrite !pow10_opp. rewrite !pow10_Z by lia.
    assert (Hk : (/ x <= inject_Z (10 ^ k))%Q).
    { apply Qle_trans with (inject_Z c); [exact H1|].
      rewrite <- Zle_Qle. lia. }
    assert (Hk1 : (inject_Z (10 ^ (k - 1)) < / x)%Q).
    { apply Qle_lt_trans with (inject_Z (c - 1)); [|exact H2].
      rewrite <- Zle_Qle. exact Hlb'. }
    assert (Hp1 : (0 < inject_Z (10 ^ k))%Q).
    { rewrite <- pow10_Z by lia. apply pow10_pos. }
    assert (Hp2 : (0 < inject_Z (10 ^ (k - 1)))%Q).
    { rewrite <- pow10_Z by lia. apply pow10_pos. }
    assert (Hxx : (x * / x == 1)%Q) by (apply Qmult_inv_r; lra).
    split.
    + apply Qle_shift_inv_r; [exact Hp1|].
      apply (Qmult_le_l _ _ x Hx) in Hk. lra.
    + apply Qlt_shift_inv_l; [exact Hp2|].
      apply (Qmult_lt_l _ _ x Hx) in Hk1. lra.
Qed.

Lemma floorLog10_unique (x : Q) (e : Z) :
  (0 < x)%Q -> (pow10 e <= x)%Q -> (x < pow10 (e + 1))%Q -> floorLog10 x = e.
Proof.
  intros Hx Hlo Hhi.
  destruct (floorLog10_spec x Hx) as [Hlo' Hhi'].
  assert (H1 : e < floorLog10 x + 1)
    by (apply pow10_lt_inv; eapply Qle_lt_trans; eassumption).
  assert (H2 : floorLog10 x < e + 1)
    by (apply pow10_lt_inv; eapply Qle_lt_trans; eassumption).
  lia.
Qed.

(** ** [toRawFixed] *)

Example toRawFixed_pads_and_trims :
  toRawFixed (1 # 8) 5 5 = mkRaw "0.12500" (1 # 800000) 1 /\
  toRawFixed (1234567 # 1) 0 3 = mkRaw "1234567" (1234567 # 1000) 7.
Proof. split; vm_compute; reflexivity. Qed.


Lemma Qdiv_zero (q : Q) : (0 / q == 0)%Q.
Proof. unfold Qdiv. apply Qmult_0_l. Qed.


(** C1: on the input [toRawFixed(1.5, 0, 0)] the digit string is ["2"] but
    the returned [roundedNumber] is [1.5 = x / 10^0], not the rounded value
    [n / 10^0 = 2]. *)
Theorem toRawFixed_roundedNumber_is_unrounded :
  let r := toRawFixed (3 # 2) 0 0 in
  formattedString r = "2" /\
  roundedNumber r = (3 # 2)%Q /\
  rescaledFixed (3 # 2) 0 = (2 # 1)%Q /\
  ~ (roundedNumber r == rescaledFixed (3 # 2) 0)%Q.
Proof.
  cbv zeta. repeat split; try (vm_compute; reflexivity).
  vm_compute. discriminate.
Qed.

Lemma toRawFixed_integer_string (x : Q) :
  (0 <= x)%Q -> formattedString (toRawFixed x 0 0) = JS.toString (roundExact x).
Proof.
  intros Hx. unfold toRawFixed.
  change (pow10 0) with 1%Q.
  rewrite (roundExact_comp (x * 1) x) by ring.
  change (negb (0 =? 0)) with false. cbv iota beta zeta.
  change (trimZeros (0 - 0)) with (fun m : string => m). cbv beta.
  cbn [formattedString].
  assert (Hm : (if roundExact x =? 0 then "0" else JS.toString (roundExact x))
               = JS.toString (roundExact x)).
  { destruct (roundExact x =? 0) eqn:E; [|reflexivity].
    apply Z.eqb_eq in E. rewrite E. reflexivity. }
  rewrite Hm. unfold trimPoint.
  rewrite toString_nonneg by now apply roundExact_nonneg.
  rewrite endsWith_allDigits; [reflexivity|].
  apply digits_numeral. now apply roundExact_nonneg.
Qed.

(** ** [toRawPrecision] *)

Lemma toRawPrecision_zero_eq (mn mx : Z) :
  1 <= mn <= mx ->
  toRawPrecision 0 mn mx
  = mkRaw (if mn =? 1 then "0" else "0." ++ JS.repeat "0" (mn - 1)) 0 1.
Proof.
  intros H. unfold toRawPrecision.
  change (Qeq_bool 0 0) with true. cbv iota beta zeta.
  destruct (Z.eq_dec mx 1) as [->|Hmx].
  - assert (mn = 1) by lia. subst mn. vm_compute. reflexivity.
  - destruct (0 >=? mx - 1) eqn:E1.
    { apply Z.geb_le in E1. lia. }
    change (0 >=? 0) with true. cbv iota beta.
    change (0 + 1) with 1.
    assert (Hrep : JS.repeat "0" mx = String "0" (JS.repeat "0" (mx - 1))).
    { replace mx with ((mx - 1) + 1) at 1 by lia. apply repeat_succ. lia. }
    rewrite Hrep, slice_head, sliceFrom_tail.
    change ("0" ++ "." ++ JS.repeat "0" (mx - 1))%string
      with ("0." ++ JS.repeat "0" (mx - 1))%string.
    change (JS.indexOf ("0." ++ JS.repeat "0" (mx - 1)) "." >=? 0) with true.
    cbv iota beta. f_equal.
    destruct (mx >? mn) eqn:E2; simpl andb; cbv iota.
    + apply Z.gtb_lt in E2.
      rewrite trimZeros_zeros by lia.
      replace (mx - 1 - (mx - mn)) with (mn - 1) by lia.
      destruct (mn =? 1) eqn:E3.
      * apply Z.eqb_eq in E3. subst mn. reflexivity.
      * apply Z.eqb_neq in E3. unfold trimPoint, JS.repeat.
        replace (Z.to_nat (mn - 1)) with (S (Z.to_nat (mn - 2))) by lia.
        rewrite repeatNat_snoc, <- append_assoc, endsWith_snoc. reflexivity.
    + assert (mx = mn)
        by (rewrite Z.gtb_ltb in E2; apply Z.ltb_ge in E2; lia).
      subst mx.
      destruct (mn =? 1) eqn:E3; [apply Z.eqb_eq in E3; lia | reflexivity].
Qed.


(** C5 (as stated, refuted): [toRawPrecision(0, 1, 2)] returns ["0"], one
    zero digit and not [maxPrecision = 2] of them. *)
Lemma toRawPrecision_zero_not_maxPrecision_digits :
  1 <= 1 <= 2 /\
  formattedString (toRawPrecision 0 1 2) = "0" /\
  ~ zeroDigitsResult (toRawPrecision 0 1 2) 2.
Proof.
  split; [lia|]. split; [vm_compute; reflexivity|].
  intros [H _]. vm_compute in H. discriminate.
Qed.

(** C5 (amended): for [x = 0] and [1 <= minPrecision <= maxPrecision],
    [toRawPrecision] produces [maxPrecision] zeros and trims them down to
    [minPrecision]: the string is ["0"] when [minPrecision = 1] and ["0."]
    followed by [minPrecision - 1] zeros otherwise, so it has exactly
    [minPrecision] digits, all zero; the rounded number is 0 and the
    integer-digit count is 1. *)
Theorem precision_zero_trimmed_to_minPrecision (mn mx : Z) :
  1 <= mn <= mx ->
  toRawPrecision 0 mn mx
  = mkRaw (if mn =? 1 then "0" else "0." ++ JS.repeat "0" (mn - 1)) 0 1 /\
  zeroDigitsResult (toRawPrecision 0 mn mx) mn.
Proof.
  intros H. split; [now apply toRawPrecision_zero_eq|].
  rewrite toRawPrecision_zero_eq by exact H.
  unfold zeroDigitsResult.
  cbn [formattedString roundedNumber integerDigitsCount].
  destruct (mn =? 1) eqn:E.
  - apply Z.eqb_eq in E. subst mn. repeat split; reflexivity.
  - apply Z.eqb_neq in E.
    change ("0." ++ JS.repeat "0" (mn - 1))%string
      with (String "0" (String "." (JS.repeat "0" (mn - 1)))).
    cbn [digitCount nonZeroDigitCount].
    rewrite digitCount_zeros by lia. rewrite nonZeroDigitCount_zeros.
    change (isDigit "0") with true. change (isDigit ".") with false.
    repeat split; try reflexivity. lia.
Qed.

Lemma precision_zero_trimmed_to_minPrecision_witness :
  toRawPrecision 0 2 3 = mkRaw "0.0" 0 1 /\
  zeroDigitsResult (toRawPrecision 0 2 3) 2.
Proof. apply (precision_zero_trimmed_to_minPrecision 2 3). lia. Defined.

(** The shape of the result for [x > 0], with [e] the magnitude and [n] the
    rounded scaled integer that the host computes, when [n] is printed as
    a numeral of at least [maxPrecision] digits: leading zeros and point,
    the first significant digit, and the remaining digits, of which the
    trimming removes at most [maxPrecision - minPrecision]. *)
Lemma toRawPrecisionOn_shape (H : Host) (x : Q) (mn mx : Z) :
  let e := h_log10Floor H x in
  let n := precisionInteger H x mx in
  (0 < x)%Q -> 1 <= mn <= mx -> 10 ^ (mx - 1) <= n ->
  isNumeral (h_toString H n) n ->
  exists pre c post,
    formattedString (toRawPrecisionOn H x mn mx)
    = (pre ++ String c post)%string /\
    onlyZerosAndPoint pre = true /\ isDigit c = true /\ c <> "0"%char /\
    let L := JS.strlen (h_toString H n) in
    let extra := Z.max 0 (e - mx + 1) in
    L - 1 + extra - (mx - mn) <= digitCount post <= L - 1 + extra.
Proof.
  intros e n Hx Hp Hnlo Hnum.
  assert (Hnpos : 0 < n).
  { apply Z.lt_le_trans with (10 ^ (mx - 1)); [|exact Hnlo].
    apply Z.pow_pos_nonneg; lia. }
  destruct (numeral_length _ _ mx Hnum ltac:(lia) Hnlo) as [HL _].
  destruct (numeral_head _ _ Hnum Hnpos) as (c & D' & HD & Hd & Hc & HD').
  unfold toRawPrecisionOn.
  destruct (Qeq_bool x 0) eqn:E.
  { apply Qeq_bool_iff in E. rewrite E in Hx. discriminate. }
  cbv zeta. fold (precisionInteger H x mx). fold e. fold n.
  set (D := h_toString H n) in *.
  set (L := JS.strlen D) in *.
  destruct (e >=? mx - 1) eqn:E1; [|destruct (e >=? 0) eqn:E2];
    cbn [formattedString].
  - apply Z.geb_le in E1.
    destruct (trimmed_shape
                ((JS.indexOf (D ++ JS.repeat "0" (e - mx + 1)) "."
                  >=? 0) && (mx >? mn))
                (mx - mn) "" c (D' ++ JS.repeat "0" (e - mx + 1))
                ltac:(lia) Hd Hc) as (post' & Hm & Hcount).
    exists "", c, post'. split.
    { rewrite <- Hm. rewrite HD. reflexivity. }
    split; [reflexivity|]. split; [exact Hd|]. split; [exact Hc|].
    cbv zeta. rewrite digitCount_append, digitCount_zeros in Hcount by lia.
    rewrite Z.max_r by lia. lia.
  - rewrite Z.geb_leb in E1. apply Z.leb_gt in E1. apply Z.geb_le in E2.
    destruct (slice_split D (e + 1))
      as (a & b & Hab & Ha & Hsa & Hsb).
    { fold L. lia. }
    rewrite Hsa, Hsb.
    destruct a as [|c0 a']; [cbn in Ha; lia|].
    rewrite HD in Hab. cbn [append] in Hab. inversion Hab; subst c0 D'.
    destruct (trimmed_shape
                ((JS.indexOf (String c a' ++ "." ++ b) "." >=? 0) && (mx >? mn))
                (mx - mn) "" c (a' ++ "." ++ b)
                ltac:(lia) Hd Hc) as (post' & Hm & Hcount).
    exists "", c, post'. split; [exact Hm|].
    split; [reflexivity|]. split; [exact Hd|]. split; [exact Hc|].
    cbv zeta. rewrite !digitCount_append in Hcount.
    change (digitCount ".") with 0 in Hcount.
    rewrite digitCount_append in HD'.
    rewrite Z.max_l by lia. lia.
  - rewrite Z.geb_leb in E2. apply Z.leb_gt in E2.
    rewrite HD.
    destruct (trimmed_shape
                ((JS.indexOf
                    ("0." ++ JS.repeat "0" (- e - 1) ++ String c D') "."
                  >=? 0) && (mx >? mn))
                (mx - mn) ("0." ++ JS.repeat "0" (- e - 1)) c D'
                ltac:(lia) Hd Hc) as (post' & Hm & Hcount).
    exists ("0." ++ JS.repeat "0" (- e - 1))%string, c, post'. split.
    { rewrite <- Hm. rewrite !append_assoc. reflexivity. }
    split.
    { change ("0." ++ JS.repeat "0" (- e - 1))%string
        with (String "0" (String "." (JS.repeat "0" (- e - 1)))).
      cbn [onlyZerosAndPoint]. rewrite onlyZerosAndPoint_zeros. reflexivity. }
    split; [exact Hd|]. split; [exact Hc|].
    cbv zeta. rewrite Z.max_l by lia. lia.
Qed.

(** [isNumeral d n] on a concrete string and integer, by evaluation. *)
Ltac numeral_by_evaluation :=
  split; [reflexivity|];
  split; [vm_compute; discriminate|];
  split; [reflexivity|];
  intros _; split; [vm_compute; discriminate|];
  eexists; eexists; split; [vm_compute; reflexivity | discriminate].

(** C7 (as stated, refuted): [toRawPrecision(1234, 1, 2)] returns ["1200"],
    which has 4 digits that are not leading zeros, more than
    [maxPrecision = 2]. *)
Lemma integer_digits_exceed_maxPrecision :
  (0 < 1234 # 1)%Q /\ 1 <= 1 <= 2 /\ 2 <= 21 /\
  formattedString (toRawPrecision (1234 # 1) 1 2) = "1200" /\
  ~ (1 <= significantDigitCount
            (formattedString (toRawPrecision (1234 # 1) 1 2)) <= 2).
Proof.
  split; [reflexivity|]. split; [lia|]. split; [lia|].
  split; [vm_compute; reflexivity|].
  intros [_ H]. vm_compute in H. apply H. reflexivity.
Qed.

(** C7 (amended): for [x > 0] and [1 <= minPrecision <= maxPrecision], with
    [e] the magnitude and [n] the rounded scaled integer that the host
    computes, whatever they are: when [n] is printed as a decimal numeral
    (as the host does below 1e21) and has at least [maxPrecision] digits,
    the number of digits of the formatted string that are not leading
    zeros is at least [minPrecision]; it is at most [maxPrecision] when
    moreover [n] has no more than [maxPrecision] digits and
    [e < maxPrecision] (no integer zeros are appended). *)
Theorem significant_digits_bounds (H : Host) (x : Q) (mn mx : Z) :
  (0 < x)%Q -> 1 <= mn <= mx ->
  let e := h_log10Floor H x in
  let n := precisionInteger H x mx in
  isNumeral (h_toString H n) n -> 10 ^ (mx - 1) <= n ->
  mn <= significantDigitCount
          (formattedString (toRawPrecisionOn H x mn mx)) /\
  (n < 10 ^ mx -> e < mx ->
   significantDigitCount
     (formattedString (toRawPrecisionOn H x mn mx)) <= mx).
Proof.
  intros Hx Hp e n Hnum Hnlo.
  destruct (toRawPrecisionOn_shape H x mn mx Hx Hp Hnlo Hnum)
    as (pre & c & post & -> & Hpre & Hd & Hc & Hcount).
  cbv zeta in Hcount. fold e n in Hcount.
  rewrite significantDigitCount_prefix by assumption.
  destruct (numeral_length _ _ mx Hnum ltac:(lia) Hnlo) as [HL HU].
  split; [lia|].
  intros Hcarry He. specialize (HU Hcarry). lia.
Qed.

Lemma significant_digits_bounds_witness :
  precisionInteger (binary64 floorLog10) (197 # 16) 4 = 1231 /\
  formattedString (toRawPrecisionOn (binary64 floorLog10) (197 # 16) 2 4)
  = "12.31" /\
  2 <= significantDigitCount
         (formattedString
            (toRawPrecisionOn (binary64 floorLog10) (197 # 16) 2 4))
    <= 4.
Proof.
  assert (E : precisionInteger (binary64 floorLog10) (197 # 16) 4 = 1231)
    by (vm_compute; reflexivity).
  split; [exact E|]. split; [vm_compute; reflexivity|].
  destruct (significant_digits_bounds (binary64 floorLog10) (197 # 16) 2 4)
    as [Hlo Hhi].
  - reflexivity.
  - lia.
  - numeral_by_evaluation.
  - rewrite E. lia.
  - split; [exact Hlo|]. apply Hhi.
    + rewrite E. lia.
    + vm_compute. reflexivity.
Defined.

(** ** [formatNumberToString] *)

(** C10: with 1 significant digit and 2 minimum integer digits, [9.5]
    rounds to ["10"] with a reported integer-digit count of 1, so one zero
    is prepended and the integer part has 3 digits. *)
Theorem padding_after_carry_overshoots :
  let raw := toRawPrecision (19 # 2) 1 1 in
  let r := formatNumberToString significant1Integer2 (Real (19 # 2)) in
  raw = mkRaw "10" (10 # 1) 1 /\
  integerDigitsCount raw < minimumIntegerDigits significant1Integer2 /\
  fn_formattedString r = "010" /\
  integerPartLength (fn_formattedString r) = 3 /\
  fn_roundedNumber r = Real (10 # 1).
Proof. cbv zeta. repeat split; vm_compute; reflexivity. Qed.

(** ** [computeExponent] *)

(** C2: under scientific notation with 0 fraction digits,
    [computeExponent] on [999.5] returns 2, and the number is printed with
    the mantissa ["10"] and the exponent ["2"]. *)
Theorem computeExponent_misses_magnitude_crossing :
  computeExponent scientific0 (Real (1999 # 2)) = Normal 2 /\
  formatToParts En.ILND scientific0 (Finite (Real (1999 # 2))) =
    Normal [mkPart PartType.integer "10";
            mkPart PartType.exponentSeparator "E";
            mkPart PartType.exponentInteger "2"].
Proof. split; vm_compute; reflexivity. Qed.

(** ** [getNumberFormatPattern] *)

(** [getNumberFormatPattern] reads the sign class off the value it is
    given. *)
Lemma getNumberFormatPattern_signClass (nf : UnifiedNumberFormat)
  (x : number) (exponent : Z) (pattern : string) :
  getNumberFormatPattern nf x exponent = Normal pattern ->
  exists table dn,
    stylePatterns nf = Normal table /\
    pattern = table (signDisplay nf) dn (signClass x).
Proof.
  unfold getNumberFormatPattern. intros H.
  destruct (stylePatterns nf) as [table|e]; cbn [bind] in H; [|discriminate].
  inversion H as [Hp]. exists table. eexists. split; [reflexivity|].
  f_equal. destruct x as [| | |[|q]]; try reflexivity.
  unfold ltZero, isZero, signClass. cbn [toQ reciprocal].
  destruct (Qlt_bool q 0); [reflexivity|].
  destruct (Qeq_bool q 0); reflexivity.
Qed.

Example signClass_of_zeros :
  signClass (Finite (Real 0)) = Sign.zeroPattern /\
  signClass (Finite NegZero) = Sign.negativePattern /\
  fn_roundedNumber (formatNumberToString always0 NegZero) = NegZero /\
  fn_formattedString (formatNumberToString always0 NegZero) = "0" /\
  format En.ILND always0 (Finite NegZero) = Normal "-0" /\
  format En.ILND always0 (Finite (Real 0)) = Normal "+0".
Proof. repeat split; vm_compute; reflexivity. Qed.

(** C4: with 0 fraction digits the input [0.25] prints the digit string
    ["0"], yet the value handed to the pattern selection is [0.25] and the
    positive pattern is selected, not the zero pattern. *)
Theorem rounds_to_zero_selects_positivePattern :
  let r := formatNumberToString exceptZero0 (Real (1 # 4)) in
  fn_formattedString r = "0" /\
  fn_roundedNumber r = Real (1 # 4) /\
  getNumberFormatPattern exceptZero0 (Finite (fn_roundedNumber r)) 0 =
    Normal (pat_decimal (patterns En.data) SignDisplay.exceptZero
              DisplayNotation.standard Sign.positivePattern) /\
  pat_decimal (patterns En.data) SignDisplay.exceptZero
    DisplayNotation.standard Sign.positivePattern
  <> pat_decimal (patterns En.data) SignDisplay.exceptZero
       DisplayNotation.standard Sign.zeroPattern /\
  format En.ILND exceptZero0 (Finite (Real (1 # 4))) = Normal "+0".
Proof.
  cbv zeta. repeat split; try (vm_compute; reflexivity).
  vm_compute. discriminate.
Qed.

(** ** [formatToParts] *)

Example format_samples :
  format En.ILND En.decimalFormat (Finite (Real (1234567 # 1)))
    = Normal "1,234,567" /\
  format En.ILND En.decimalFormat NaN = Normal "NaN" /\
  format En.ILND En.decimalFormat (Finite NegZero) = Normal "-0" /\
  format En.ILND
    (withOptions En.decimalFormat Style.percent Notation.standard
       SignDisplay.auto RoundingType.fractionDigits 1 0 0)
    (Finite (Real (1 # 2))) = Normal "50%".
Proof. repeat split; vm_compute; reflexivity. Qed.

Example splitPattern_sample :
  splitPattern "a{b}c{{d}}{e f}{}{g" = ["a"; "{b}"; "c{"; "{d}"; "}{e f}{}{g"].
Proof. vm_compute; reflexivity. Qed.

(** C3: with grouping enabled, [1234.5] is grouped over the whole digit
    string, fraction included: the parts are ["123"], [","], ["4.5"], then
    the decimal and fraction parts; [1234567] gives the three groups
    ["1"], ["234"], ["567"]. *)
Theorem grouping_partitions_whole_digit_string :
  formatToParts En.ILND En.decimalFormat (Finite (Real (2469 # 2))) =
    Normal [mkPart PartType.integer "123";
            mkPart PartType.group ",";
            mkPart PartType.integer "4.5";
            mkPart PartType.decimal ".";
            mkPart PartType.fraction "5"] /\
  formatToParts En.ILND En.decimalFormat (Finite (Real (1234567 # 1))) =
    Normal [mkPart PartType.integer "1";
            mkPart PartType.group ",";
            mkPart PartType.integer "234";
            mkPart PartType.group ",";
            mkPart PartType.integer "567"].
Proof. split; vm_compute; reflexivity. Qed.

(** ** The unimplemented paths *)

Lemma computeExponentForMagnitude_throw nf m e :
  computeExponentForMagnitude nf m = Throw e -> e = compactNotImplemented.
Proof.
  unfold computeExponentForMagnitude.
  destruct (notation nf); intros H; try discriminate. now inversion H.
Qed.

Lemma computeExponent_throw nf x e :
  computeExponent nf x = Throw e -> e = compactNotImplemented.
Proof.
  unfold computeExponent.
  destruct (isZero x); [discriminate|].
  destruct (computeExponentForMagnitude nf _) as [ex|e'] eqn:E; cbn [bind].
  - destruct (isZero _); [discriminate|].
    destruct (_ =? _); [discriminate|].
    apply computeExponentForMagnitude_throw.
  - intros H. inversion H; subst.
    eapply computeExponentForMagnitude_throw; eassumption.
Qed.

Lemma computeExponent_compact nf x :
  notation nf = Notation.compact -> isZero x = false ->
  computeExponent nf x = Throw compactNotImplemented.
Proof.
  intros Hn Hz. unfold computeExponent. rewrite Hz.
  unfold computeExponentForMagnitude. rewrite Hn. reflexivity.
Qed.

Lemma isZero_mul_pos (x : finite) (c : Q) :
  ~ (c == 0)%Q -> isZero x = false -> isZero (mul x (Real c)) = false.
Proof.
  unfold isZero, mul. intros Hc Hx. cbn [toQ].
  destruct (Qeq_bool (toQ x * c) 0) eqn:E.
  - apply Qeq_bool_iff in E. apply Qmult_integral in E.
    destruct E as [E|E]; [|contradiction].
    apply Qeq_bool_iff in E. congruence.
  - cbn [toQ]. destruct (Qeq_bool (Qred (toQ x * c)) 0) eqn:E'; [|reflexivity].
    apply Qeq_bool_iff in E'. rewrite Qred_correct in E'.
    apply Qeq_bool_iff in E'. congruence.
Qed.

Lemma getNumberFormatPattern_currency nf x exponent :
  style nf = Style.currency ->
  getNumberFormatPattern nf x exponent = Throw notImplemented.
Proof.
  intros H. unfold getNumberFormatPattern, stylePatterns. rewrite H.
  reflexivity.
Qed.

Lemma assembleParts_currency ILND nf n x exponent :
  style nf = Style.currency ->
  assembleParts ILND nf n x exponent = Throw notImplemented.
Proof.
  intros H. unfold assembleParts.
  rewrite getNumberFormatPattern_currency by exact H. reflexivity.
Qed.

(** C8 (as stated, refuted): with compact notation and decimal style, the
    inputs 0 and NaN are formatted; no failure is raised. *)
Lemma compact_zero_is_not_refused :
  notation compactDecimal = Notation.compact /\
  formatToParts En.ILND compactDecimal (Finite (Real 0))
    = Normal [mkPart PartType.integer "0"] /\
  formatToParts En.ILND compactDecimal NaN
    = Normal [mkPart PartType.nan "NaN"].
Proof. repeat split; vm_compute; reflexivity. Qed.

(** C8 (amended): formatting with style [currency] fails with a
    not-implemented error for every input number, and formatting with
    notation [compact] fails with it for every finite input other than zero;
    the result is the thrown error, with no part sequence. *)
Theorem unimplemented_paths_throw
  (ILND : string -> option (list string)) (nf : UnifiedNumberFormat)
  (num : number) :
  style nf = Style.currency \/
  (notation nf = Notation.compact /\
   exists x, num = Finite x /\ isZero x = false) ->
  exists e, formatToParts ILND nf num = Throw e /\ isNotImplemented e.
Proof.
  intros [Hc | (Hn & x & -> & Hx)].
  - unfold formatToParts.
    destruct num as [| | |x];
      try (exists notImplemented; split;
           [now apply assembleParts_currency | now left]).
    cbv zeta. destruct (computeExponent nf _) as [ex|e] eqn:E; cbn [bind].
    + exists notImplemented.
      split; [now apply assembleParts_currency | now left].
    + exists e. split; [reflexivity|]. right.
      eapply computeExponent_throw; eassumption.
  - exists compactNotImplemented. split; [|now right].
    unfold formatToParts. cbv zeta.
    rewrite computeExponent_compact; [reflexivity | exact Hn |].
    destruct (style nf); try exact Hx.
    apply isZero_mul_pos; [discriminate | exact Hx].
Qed.

Lemma unimplemented_paths_throw_witness :
  (exists e, formatToParts En.ILND currencyFormat (Finite (Real 5)) = Throw e
             /\ isNotImplemented e) /\
  (exists e, formatToParts En.ILND compactDecimal (Finite (Real 5)) = Throw e
             /\ isNotImplemented e).
Proof.
  split.
  - apply unimplemented_paths_throw. left. reflexivity.
  - apply unimplemented_paths_throw. right. split; [reflexivity|].
    exists (Real 5). split; reflexivity.
Defined.

(** ** Zero under compact notation *)



















(** * Further properties *)

(** ** The exact functions as an instance *)

(** [toRawFixed], [toRawPrecision] and [formatNumberToString] are the
    functions over a host at exact arithmetic. *)
Lemma toRawFixed_exact (x : Q) (mn mx : Z) :
  toRawFixedOn exactHost x mn mx = toRawFixed x mn mx.
Proof.
  unfold toRawFixedOn, toRawFixed.
  cbn [exactHost h_mul h_div h_pow10 h_toString].
  rewrite (roundExact_comp (Qred (x * pow10 mx)) (x * pow10 mx))
    by apply Qred_correct.
  reflexivity.
Qed.

Lemma toRawPrecision_exact (x : Q) (mn mx : Z) :
  toRawPrecisionOn exactHost x mn mx = toRawPrecision x mn mx.
Proof.
  unfold toRawPrecisionOn, toRawPrecision.
  cbn [exactHost h_mul h_div h_pow10 h_toString h_log10Floor].
  rewrite (roundExact_comp
             (Qred (x / pow10 (floorLog10 x - mx + 1)))
             (x / pow10 (floorLog10 x - mx + 1)))
    by apply Qred_correct.
  reflexivity.
Qed.

Lemma formatNumberToString_exact (nf : UnifiedNumberFormat) (x : finite) :
  formatNumberToStringOn exactHost nf x = formatNumberToString nf x.
Proof.
  unfold formatNumberToStringOn, formatNumberToString,
    roundMagnitudeOn, roundMagnitude.
  now rewrite !toRawFixed_exact, !toRawPrecision_exact.
Qed.

(** ** Slices *)

Lemma length_substring (s : string) :
  forall a k : nat, (a + k <= String.length s)%nat ->
  String.length (substring a k s) = k.
Proof.
  induction s as [|c s IH]; intros a k H; cbn [String.length] in H.
  - assert (a = O) by lia. assert (k = O) by lia. subst. reflexivity.
  - destruct a as [|a]; destruct k as [|k]; cbn [substring String.length].
    + reflexivity.
    + rewrite IH by lia. reflexivity.
    + apply IH. lia.
    + apply IH. lia.
Qed.

Lemma substring_add (s : string) :
  forall a k1 k2 : nat, (a + k1 + k2 <= String.length s)%nat ->
  substring a (k1 + k2) s
  = (substring a k1 s ++ substring (a + k1) k2 s)%string.
Proof.
  induction s as [|c s IH]; intros a k1 k2 H; cbn [String.length] in H.
  - assert (a = O) by lia. assert (k1 = O) by lia. assert (k2 = O) by lia.
    subst. reflexivity.
  - destruct a as [|a].
    + destruct k1 as [|k1].
      * cbn [substring plus append]. reflexivity.
      * cbn [plus substring append]. rewrite (IH O k1 k2) by lia.
        reflexivity.
    + cbn [plus substring]. apply IH. lia.
Qed.

Lemma slice_in_range (s : string) (a b : Z) :
  0 <= a <= b -> b <= JS.strlen s ->
  JS.slice s a b = substring (Z.to_nat a) (Z.to_nat (b - a)) s.
Proof.
  intros Hab Hb. unfold JS.slice, JS.relIndex.
  destruct (a <? 0) eqn:Ea; [apply Z.ltb_lt in Ea; lia|].
  destruct (b <? 0) eqn:Eb; [apply Z.ltb_lt in Eb; lia|].
  rewrite !Z.min_l by lia. reflexivity.
Qed.

Lemma strlen_slice (s : string) (a b : Z) :
  0 <= a <= b -> b <= JS.strlen s -> JS.strlen (JS.slice s a b) = b - a.
Proof.
  intros Hab Hb. rewrite slice_in_range by assumption.
  unfold JS.strlen in *. rewrite length_substring by lia. lia.
Qed.

Lemma slice_concat (s : string) (a b c : Z) :
  0 <= a <= b -> b <= c -> c <= JS.strlen s ->
  (JS.slice s a b ++ JS.slice s b c)%string = JS.slice s a c.
Proof.
  intros Hab Hbc Hc. rewrite !slice_in_range by lia.
  replace (Z.to_nat (c - a)) with (Z.to_nat (b - a) + Z.to_nat (c - b))%nat
    by lia.
  replace (Z.to_nat b) with (Z.to_nat a + Z.to_nat (b - a))%nat by lia.
  symmetry. apply substring_add. unfold JS.strlen in Hc. lia.
Qed.

Lemma slice_whole (s : string) : JS.slice s 0 (JS.strlen s) = s.
Proof.
  rewrite slice_in_range by (pose proof (strlen_nonneg s); lia).
  rewrite Z.sub_0_r. unfold JS.strlen. rewrite Nat2Z.id.
  apply substring_all.
Qed.

Lemma substring_zero (s : string) : forall k : nat, substring k 0 s = "".
Proof.
  induction s as [|c s IH]; intros [|k]; cbn [substring];
    [reflexivity | reflexivity | reflexivity | apply IH].
Qed.

Lemma slice_empty (s : string) (a : Z) :
  0 <= a <= JS.strlen s -> JS.slice s a a = "".
Proof.
  intros Ha. rewrite slice_in_range by lia. rewrite Z.sub_diag.
  apply substring_zero.
Qed.

(** ** The value of a digit string *)

Lemma trimLoop_split (fuel : nat) :
  forall s, exists r, (r <= fuel)%nat /\
    s = (trimLoop fuel s ++ JS.repeatNat "0" r)%string.
Proof.
  induction fuel as [|fuel IH]; intros s.
  - exists O. split; [lia|]. cbn. now rewrite append_nil_r.
  - cbn [trimLoop]. destruct (JS.endsWith s "0") eqn:E.
    + assert (Hne : s <> "") by (intros ->; discriminate).
      destruct (string_snoc s Hne) as (t & c & ->).
      rewrite endsWith_snoc in E. apply Ascii.eqb_eq in E. subst c.
      rewrite slice_dropLast. destruct (IH t) as (r & Hr & Ht).
      exists (S r). split; [lia|].
      rewrite repeatNat_snoc, <- append_assoc, <- Ht. reflexivity.
    + exists O. split; [lia|]. cbn. now rewrite append_nil_r.
Qed.

Lemma allDigits_repeatNat (r : nat) : allDigits (JS.repeatNat "0" r) = true.
Proof.
  induction r as [|r IH]; [reflexivity|].
  change (JS.repeatNat "0" (S r)) with (String "0" (JS.repeatNat "0" r)).
  cbn [allDigits]. now rewrite IH.
Qed.

Lemma strlen_repeatNat (r : nat) : JS.strlen (JS.repeatNat "0" r) = Z.of_nat r.
Proof.
  rewrite <- digitCount_allDigits by apply allDigits_repeatNat.
  apply digitCount_repeatNat.
Qed.

(** The result of trimming [a.b]: a prefix [b'] of the fraction is kept, and
    the point goes with an empty fraction. *)
Lemma trimmed_decimal (cut : Z) (a b : string) :
  allDigits a = true -> allDigits b = true ->
  exists b' r,
    b = (b' ++ JS.repeatNat "0" r)%string /\ (r <= Z.to_nat cut)%nat /\
    trimPoint (trimZeros cut (a ++ "." ++ b))
    = match b' with
      | EmptyString => a
      | _ => (a ++ "." ++ b')%string
      end.
Proof.
  intros Ha Hb.
  change (a ++ "." ++ b)%string with (a ++ String "." b)%string.
  rewrite trimZeros_prefix by discriminate.
  unfold trimZeros.
  destruct (trimLoop_split (Z.to_nat cut) b) as (r & Hr & Hsplit).
  pose proof (allDigits_trimLoop (Z.to_nat cut) b Hb) as Hb'.
  exists (trimLoop (Z.to_nat cut) b), r.
  split; [exact Hsplit|]. split; [exact Hr|].
  destruct (trimLoop (Z.to_nat cut) b) as [|c b'] eqn:E.
  - unfold trimPoint. now rewrite endsWith_snoc, slice_dropLast.
  - unfold trimPoint.
    change (a ++ String "." (String c b'))%string
      with (a ++ (String "." (String c b')))%string.
    rewrite endsWith_append by discriminate.
    rewrite endsWith_cons by discriminate.
    now rewrite (endsWith_allDigits _ Hb').
Qed.

Lemma fractionLength_digits (a : string) :
  allDigits a = true -> fractionLength a = 0.
Proof.
  intros Ha. unfold fractionLength, JS.indexOf.
  now rewrite indexOfFrom_allDigits.
Qed.

Lemma fractionLength_point (a b : string) :
  allDigits a = true -> fractionLength (a ++ "." ++ b) = JS.strlen b.
Proof.
  intros Ha. unfold fractionLength, JS.indexOf.
  change (a ++ "." ++ b)%string with (a ++ String "." b)%string.
  rewrite indexOfFrom_point by exact Ha.
  rewrite strlen_append, strlen_cons.
  pose proof (strlen_nonneg a).
  destruct (0 + JS.strlen a <? 0) eqn:E; [apply Z.ltb_lt in E; lia | lia].
Qed.

Lemma numeralValueFrom_append (s t : string) :
  forall acc, numeralValueFrom (s ++ t) acc
              = numeralValueFrom t (numeralValueFrom s acc).
Proof.
  induction s as [|c s IH]; intros acc; [reflexivity|].
  cbn [append numeralValueFrom]. destruct (digitValue c); apply IH.
Qed.

Lemma numeralValueFrom_zeros (r : nat) :
  forall acc, numeralValueFrom (JS.repeatNat "0" r) acc = acc * 10 ^ Z.of_nat r.
Proof.
  induction r as [|r IH]; intros acc.
  - cbn. lia.
  - change (JS.repeatNat "0" (S r)) with (String "0" (JS.repeatNat "0" r)).
    cbn [numeralValueFrom]. change (digitValue "0") with (Some O).
    cbv iota. rewrite IH, Nat2Z.inj_succ, Z.pow_succ_r by lia.
    change (Z.of_nat 0) with 0. lia.
Qed.

Lemma digitValue_digitChar (d : Z) :
  0 <= d < 10 -> digitValue (JS.digitChar d) = Some (Z.to_nat d).
Proof.
  intros H.
  assert (E : d = 0 \/ d = 1 \/ d = 2 \/ d = 3 \/ d = 4 \/ d = 5 \/ d = 6
              \/ d = 7 \/ d = 8 \/ d = 9) by lia.
  repeat (destruct E as [->|E]); try subst d; reflexivity.
Qed.

Lemma digitsFuel_value (fuel : nat) :
  forall n acc, 0 <= n < 2 ^ Z.of_nat fuel -> (1 <= fuel)%nat ->
  exists d, JS.digitsFuel fuel n acc = (d ++ acc)%string /\
            forall a, numeralValueFrom d a = a * 10 ^ JS.strlen d + n.
Proof.
  induction fuel as [|fuel IH]; intros n acc Hn Hf; [lia|].
  cbn [JS.digitsFuel].
  assert (Hmod : 0 <= n mod 10 < 10) by (apply Z.mod_pos_bound; lia).
  destruct (n <? 10) eqn:E.
  - apply Z.ltb_lt in E.
    exists (String (JS.digitChar (n mod 10)) ""). split; [reflexivity|].
    intros a. cbn [numeralValueFrom].
    rewrite (digitValue_digitChar _ Hmod).
    change (JS.strlen (String (JS.digitChar (n mod 10)) "")) with 1.
    rewrite Z.mod_small by lia. rewrite Z2Nat.id by lia. lia.
  - apply Z.ltb_ge in E.
    assert (Hpow : 2 ^ Z.of_nat (S fuel) = 2 * 2 ^ Z.of_nat fuel).
    { rewrite Nat2Z.inj_succ, Z.pow_succ_r by lia. reflexivity. }
    assert (Hdiv : 0 <= n / 10 < 2 ^ Z.of_nat fuel).
    { split; [apply Z.div_pos; lia|].
      apply Z.div_lt_upper_bound; lia. }
    assert (Hdiv1 : 1 <= n / 10) by (apply Z.div_le_lower_bound; lia).
    assert (Hfuel : (1 <= fuel)%nat).
    { destruct fuel; [|lia]. change (2 ^ Z.of_nat 0) with 1 in Hdiv. lia. }
    destruct (IH (n / 10) (String (JS.digitChar (n mod 10)) acc) Hdiv Hfuel)
      as (d & Hd & Hval).
    exists (d ++ String (JS.digitChar (n mod 10)) "")%string. split.
    { rewrite Hd, append_assoc. reflexivity. }
    intros a. rewrite numeralValueFrom_append, Hval.
    cbn [numeralValueFrom]. rewrite (digitValue_digitChar _ Hmod).
    rewrite strlen_append.
    change (JS.strlen (String (JS.digitChar (n mod 10)) "")) with 1.
    pose proof (strlen_nonneg d).
    rewrite Z.pow_add_r, Z.pow_1_r by lia.
    rewrite Z2Nat.id by lia.
    pose proof (Z.div_mod n 10 ltac:(lia)). lia.
Qed.

Lemma digits_value (n : Z) :
  0 <= n ->
  forall a, numeralValueFrom (JS.digits n) a
            = a * 10 ^ JS.strlen (JS.digits n) + n.
Proof.
  intros Hn. unfold JS.digits.
  destruct (digitsFuel_value (S (Z.to_nat (Z.log2 n))) n "")
    as (d & Hd & Hval).
  - split; [exact Hn|].
    rewrite Nat2Z.inj_succ, Z2Nat.id by apply Z.log2_nonneg.
    destruct (Z.eq_dec n 0) as [->|Hnz]; [reflexivity|].
    apply Z.log2_spec. lia.
  - lia.
  - rewrite Hd, append_nil_r. exact Hval.
Qed.

(** ** [toRawFixed]: the digit string *)

(** The string that [toRawFixed] lays out: ["0"] for [n = 0], what the host
    prints otherwise. *)
Lemma fixed_numeral (H : Host) (n : Z) :
  isNumeral (h_toString H n) n ->
  isNumeral (if n =? 0 then "0" else h_toString H n) n.
Proof.
  intros Hnum. destruct (n =? 0) eqn:E; [|exact Hnum].
  apply Z.eqb_eq in E. subst n.
  split; [reflexivity|]. split; [reflexivity|]. split; [reflexivity|].
  intros Hlt. inversion Hlt.
Qed.

Lemma prints_numeral (H : Host) (n : Z) :
  0 <= n -> h_toString H n = JS.toString n ->
  isNumeral (h_toString H n) n /\
  numeralValueFrom (if n =? 0 then "0" else h_toString H n) 0 = n.
Proof.
  intros Hn Hp. rewrite Hp, toString_nonneg by exact Hn.
  split; [now apply digits_numeral|].
  destruct (n =? 0) eqn:E.
  - apply Z.eqb_eq in E. subst n. reflexivity.
  - pose proof (digits_value n Hn 0) as Hval.
    rewrite Z.mul_0_l, Z.add_0_l in Hval. exact Hval.
Qed.

(** The shape of the result of [toRawFixed] when the rounded integer [n] is
    not negative and is printed as a numeral [m]: the digits of [m], padded
    to more than [f] digits, are cut into the integer part [a] and the
    fraction, of which [r] trailing zeros are trimmed. *)
Lemma toRawFixedOn_shape (H : Host) (x : Q) (mn mx : Z) :
  let n := fixedInteger H x mx in
  let m := if n =? 0 then "0" else h_toString H n in
  0 <= mn <= mx -> isNumeral (h_toString H n) n ->
  exists a b' r,
    allDigits a = true /\ allDigits b' = true /\ 1 <= JS.strlen a /\
    0 <= r <= mx - mn /\ JS.strlen b' + r = mx /\
    numeralValueFrom (a ++ b') 0 * 10 ^ r = numeralValueFrom m 0 /\
    integerDigitsCount (toRawFixedOn H x mn mx) = JS.strlen a /\
    formattedString (toRawFixedOn H x mn mx)
    = match b' with
      | EmptyString => a
      | _ => (a ++ "." ++ b')%string
      end.
Proof.
  intros n m0 Hmx Hnum0.
  pose proof (fixed_numeral H n Hnum0) as Hnum. fold m0 in Hnum.
  unfold toRawFixedOn. cbv zeta. fold (fixedInteger H x mx). fold n. fold m0.
  destruct Hnum as (Hall & Hlen & _).
  destruct (mx =? 0) eqn:E0; cbn [negb].
  - cbn [formattedString integerDigitsCount].
    apply Z.eqb_eq in E0.
    assert (Hcut : trimZeros (mx - mn) m0 = m0).
    { unfold trimZeros. replace (Z.to_nat (mx - mn)) with O by lia.
      reflexivity. }
    rewrite Hcut. unfold trimPoint. rewrite (endsWith_allDigits _ Hall).
    exists m0, "", 0.
    rewrite append_nil_r. change (10 ^ 0) with 1.
    split; [exact Hall|]. split; [reflexivity|]. split; [exact Hlen|].
    split; [lia|]. split; [cbn; lia|]. split; [lia|].
    split; reflexivity.
  - apply Z.eqb_neq in E0.
    set (padded := if JS.strlen m0 <=? mx
                   then ((JS.repeat "0" (mx + 1 - JS.strlen m0)
                          ++ m0)%string, mx + 1)
                   else (m0, JS.strlen m0)).
    assert (Hpad : allDigits (fst padded) = true /\
                   JS.strlen (fst padded) = snd padded /\ mx < snd padded /\
                   numeralValueFrom (fst padded) 0 = numeralValueFrom m0 0).
    { unfold padded. destruct (JS.strlen m0 <=? mx) eqn:E1;
        cbn [fst snd].
      - apply Z.leb_le in E1.
        rewrite allDigits_append, allDigits_zeros, Hall, strlen_append.
        split; [reflexivity|].
        pose proof (digitCount_zeros (mx + 1 - JS.strlen m0)
                      ltac:(lia)) as Hz.
        rewrite digitCount_allDigits in Hz by apply allDigits_zeros.
        split; [lia|]. split; [lia|].
        rewrite numeralValueFrom_append. unfold JS.repeat.
        rewrite numeralValueFrom_zeros, Z.mul_0_l. reflexivity.
      - apply Z.leb_gt in E1.
        split; [exact Hall|]. split; [reflexivity|].
        split; [lia | reflexivity]. }
    destruct padded as [m k]. cbn [fst snd] in Hpad.
    destruct Hpad as (Hm1 & Hk & Hkf & Hmv).
    destruct (slice_split m (k - mx)) as (a & b & Hab & Ha & Hsa & Hsb);
      [lia|].
    rewrite Hsa, Hsb. cbn [formattedString integerDigitsCount].
    rewrite Hab, allDigits_append in Hm1. apply andb_true_iff in Hm1.
    destruct Hm1 as [Hda Hdb].
    destruct (trimmed_decimal (mx - mn) a b Hda Hdb)
      as (b' & r & Hb & Hr & Htrim).
    exists a, b', (Z.of_nat r).
    assert (Hdb' : allDigits b' = true).
    { rewrite Hb, allDigits_append in Hdb. apply andb_true_iff in Hdb. tauto. }
    assert (Hlenb : JS.strlen b = mx).
    { rewrite Hab, strlen_append in Hk. lia. }
    rewrite Hb, strlen_append, strlen_repeatNat in Hlenb.
    split; [exact Hda|]. split; [exact Hdb'|]. split; [lia|].
    split; [lia|]. split; [exact Hlenb|].
    split.
    { rewrite <- Hmv, Hab, Hb, <- append_assoc.
      rewrite (numeralValueFrom_append (a ++ b')), numeralValueFrom_zeros.
      reflexivity. }
    split; [reflexivity | exact Htrim].
Qed.

Lemma fractionLength_shape (a b' : string) :
  allDigits a = true ->
  fractionLength match b' with
                 | EmptyString => a
                 | _ => (a ++ "." ++ b')%string
                 end = JS.strlen b'.
Proof.
  intros Ha. destruct b' as [|c b'].
  - now apply fractionLength_digits.
  - now apply fractionLength_point.
Qed.

Lemma integerPartLength_shape (a b' : string) :
  allDigits a = true ->
  integerPartLength match b' with
                    | EmptyString => a
                    | _ => (a ++ "." ++ b')%string
                    end = JS.strlen a.
Proof.
  intros Ha. destruct b' as [|c b'].
  - now apply integerPartLength_digits.
  - now apply integerPartLength_point.
Qed.

Lemma numeralValueFrom_shape (a b' : string) (acc : Z) :
  numeralValueFrom match b' with
                   | EmptyString => a
                   | _ => (a ++ "." ++ b')%string
                   end acc = numeralValueFrom (a ++ b') acc.
Proof.
  destruct b' as [|c b'].
  - now rewrite append_nil_r.
  - rewrite !numeralValueFrom_append. reflexivity.
Qed.

(** A numeral [V] with [k] fraction digits, completed by [r] zeros. *)
Lemma decimal_rescale (V k r : Z) :
  0 <= k -> 0 <= r ->
  (inject_Z V / pow10 k == inject_Z (V * 10 ^ r) / pow10 (k + r))%Q.
Proof.
  intros Hk Hr. rewrite pow10_plus, inject_Z_mult, <- (pow10_Z r) by exact Hr.
  pose proof (pow10_pos k). pose proof (pow10_pos r).
  field. split; lra.
Qed.

Lemma nearestHalfUp_error (y : Q) (n : Z) :
  nearestHalfUp y n -> (Qabs (inject_Z n - y) <= 1 # 2)%Q.
Proof.
  intros [H|H].
  - now apply Qlt_le_weak.
  - rewrite H. discriminate.
Qed.

(** The digit string of [toRawFixed] reads as [n / 10^f] when [n] is
    printed as its decimal numeral. *)
Lemma toRawFixedOn_value (H : Host) (x : Q) (mn mx : Z) :
  let n := fixedInteger H x mx in
  0 <= n -> 0 <= mn <= mx -> h_toString H n = JS.toString n ->
  (decimalValue (formattedString (toRawFixedOn H x mn mx))
   == inject_Z n / pow10 mx)%Q.
Proof.
  intros n Hn Hmx Hp.
  destruct (prints_numeral H n Hn Hp) as [Hnum Hv0].
  destruct (toRawFixedOn_shape H x mn mx Hmx Hnum)
    as (a & b' & r & Ha & Hb & Hla & Hr & Hlen & Hv & _ & ->).
  fold n in Hv. rewrite Hv0 in Hv.
  unfold decimalValue.
  rewrite fractionLength_shape, numeralValueFrom_shape by exact Ha.
  rewrite <- Hv, <- Hlen.
  apply decimal_rescale; [apply strlen_nonneg | lia].
Qed.

(** X1: whatever the host computes for the scaled value, when the rounded
    integer [n] is not negative and is printed as a decimal numeral (as
    the host does below 1e21), and [0 <= minFraction <= maxFraction], the
    digit string of [toRawFixed] has as many digits before the decimal
    point as the reported integer-digit count, at least one; it has between
    [minFraction] and [maxFraction] digits after it; it never ends in the
    decimal point; and it holds no other digit. *)
Theorem toRawFixed_digit_counts (H : Host) (x : Q) (mn mx : Z) :
  0 <= fixedInteger H x mx -> 0 <= mn <= mx ->
  isNumeral (h_toString H (fixedInteger H x mx)) (fixedInteger H x mx) ->
  let r := toRawFixedOn H x mn mx in
  integerPartLength (formattedString r) = integerDigitsCount r /\
  1 <= integerDigitsCount r /\
  mn <= fractionLength (formattedString r) <= mx /\
  JS.endsWith (formattedString r) "." = false /\
  digitCount (formattedString r)
  = integerDigitsCount r + fractionLength (formattedString r).
Proof.
  intros Hn Hmx Hnum. cbv zeta.
  destruct (toRawFixedOn_shape H x mn mx Hmx Hnum)
    as (a & b' & r & Ha & Hb & Hla & Hr & Hlen & _ & -> & ->).
  rewrite integerPartLength_shape, fractionLength_shape by exact Ha.
  pose proof (strlen_nonneg b').
  split; [reflexivity|]. split; [exact Hla|]. split; [lia|].
  split.
  - destruct b' as [|c b']; [now apply endsWith_allDigits|].
    change (a ++ "." ++ String c b')%string
      with (a ++ (String "." (String c b')))%string.
    rewrite endsWith_append by discriminate.
    rewrite endsWith_cons by discriminate.
    now apply endsWith_allDigits.
  - destruct b' as [|c b'].
    + rewrite digitCount_allDigits by exact Ha.
      change (JS.strlen "") with 0. lia.
    + rewrite !digitCount_append. change (digitCount ".") with 0.
      rewrite (digitCount_allDigits a), (digitCount_allDigits (String c b'))
        by assumption.
      lia.
Qed.

Lemma toRawFixed_digit_counts_witness :
  let r := toRawFixedOn (binary64 floorLog10) (5 # 4) 0 3 in
  fixedInteger (binary64 floorLog10) (5 # 4) 3 = 1250 /\
  formattedString r = "1.25" /\
  integerPartLength (formattedString r) = integerDigitsCount r /\
  0 <= fractionLength (formattedString r) <= 3.
Proof.
  assert (E : fixedInteger (binary64 floorLog10) (5 # 4) 3 = 1250)
    by (vm_compute; reflexivity).
  destruct (toRawFixed_digit_counts (binary64 floorLog10) (5 # 4) 0 3)
    as (H1 & _ & H3 & _).
  - rewrite E. lia.
  - lia.
  - numeral_by_evaluation.
  - cbv zeta. split; [exact E|]. split; [vm_compute; reflexivity|].
    split; [exact H1 | exact H3].
Defined.

(** X2: whatever the host computes for the scaled value, when the rounded
    integer [n] is not negative and is printed as its decimal numeral (as
    the host does below [2^53]), the digit string of [toRawFixed], read as
    a decimal numeral, is [n / 10^maxFraction]; when moreover the host's
    product is the exact [x * 10^maxFraction], the string differs from [x]
    by at most half a unit of the last fraction digit. *)
Theorem toRawFixed_string_value (H : Host) (x : Q) (mn mx : Z) :
  0 <= fixedInteger H x mx -> 0 <= mn <= mx ->
  h_toString H (fixedInteger H x mx) = JS.toString (fixedInteger H x mx) ->
  (decimalValue (formattedString (toRawFixedOn H x mn mx))
   == inject_Z (fixedInteger H x mx) / pow10 mx)%Q /\
  ((h_mul H x (h_pow10 H mx) == x * pow10 mx)%Q ->
   (Qabs (decimalValue (formattedString (toRawFixedOn H x mn mx)) - x)
    <= (1 # 2) * pow10 (- mx))%Q).
Proof.
  intros Hn Hmx Hp.
  pose proof (toRawFixedOn_value H x mn mx Hn Hmx Hp) as Hval.
  split; [exact Hval|].
  intros Hexact. rewrite Hval.
  pose proof (nearestHalfUp_error _ _
                (roundExact_nearest (h_mul H x (h_pow10 H mx)))) as He.
  fold (fixedInteger H x mx) in He. rewrite Hexact in He.
  set (n := inject_Z (fixedInteger H x mx)) in *.
  pose proof (pow10_pos mx) as Hpos.
  rewrite pow10_opp.
  apply Qabs_Qle_condition in He. destruct He as [He1 He2].
  apply Qabs_Qle_condition.
  assert (Hinv : (0 < / pow10 mx)%Q) by now apply Qinv_lt_0_compat.
  assert (E : (n / pow10 mx - x == (n - x * pow10 mx) * / pow10 mx)%Q).
  { field. lra. }
  rewrite E. split.
  - setoid_replace (- ((1 # 2) * / pow10 mx))%Q
      with ((- (1 # 2)) * / pow10 mx)%Q by ring.
    apply Qmult_le_compat_r; [exact He1 | lra].
  - apply Qmult_le_compat_r; [exact He2 | lra].
Qed.

Lemma toRawFixed_string_value_witness :
  fixedInteger (binary64 floorLog10) (5 # 4) 1 = 13 /\
  formattedString (toRawFixedOn (binary64 floorLog10) (5 # 4) 0 1) = "1.3" /\
  (decimalValue
     (formattedString (toRawFixedOn (binary64 floorLog10) (5 # 4) 0 1))
   == 13 # 10)%Q /\
  (Qabs (decimalValue
           (formattedString (toRawFixedOn (binary64 floorLog10) (5 # 4) 0 1))
         - (5 # 4))
   <= (1 # 2) * pow10 (- 1))%Q.
Proof.
  assert (E : fixedInteger (binary64 floorLog10) (5 # 4) 1 = 13)
    by (vm_compute; reflexivity).
  split; [exact E|]. split; [vm_compute; reflexivity|].
  destruct (toRawFixed_string_value (binary64 floorLog10) (5 # 4) 0 1)
    as [Hv He].
  - rewrite E. lia.
  - lia.
  - rewrite E. reflexivity.
  - split.
    + rewrite Hv, E. reflexivity.
    + apply He. vm_compute. reflexivity.
Defined.

Lemma scaled_numeral_bounds (nn L mx : Z) :
  0 <= mx -> mx < L -> 10 ^ (L - 1) <= nn -> nn < 10 ^ L ->
  (pow10 (L - 1 - mx) <= inject_Z nn / pow10 mx)%Q /\
  (inject_Z nn / pow10 mx < pow10 (L - 1 - mx + 1))%Q.
Proof.
  intros Hmx HL Hlo Hhi.
  pose proof (pow10_pos mx) as Hp.
  assert (H1 : (pow10 (L - 1) == pow10 (L - 1 - mx) * pow10 mx)%Q).
  { rewrite <- pow10_plus. replace (L - 1 - mx + mx) with (L - 1) by lia.
    reflexivity. }
  assert (H2 : (pow10 L == pow10 (L - 1 - mx + 1) * pow10 mx)%Q).
  { rewrite <- pow10_plus. replace (L - 1 - mx + 1 + mx) with L by lia.
    reflexivity. }
  assert (Hlo' : (pow10 (L - 1) <= inject_Z nn)%Q).
  { rewrite pow10_Z by lia. rewrite <- Zle_Qle. exact Hlo. }
  assert (Hhi' : (inject_Z nn < pow10 L)%Q).
  { rewrite pow10_Z by lia. rewrite <- Zlt_Qlt. exact Hhi. }
  split.
  - apply Qle_shift_div_l; [exact Hp|]. rewrite <- H1. exact Hlo'.
  - apply Qlt_shift_div_r; [exact Hp|]. rewrite <- H2. exact Hhi'.
Qed.

(** X3: whatever the host computes for the scaled value, when the rounded
    integer [n] is not negative and is printed as a decimal numeral (as
    the host does below 1e21), the integer-digit count that [toRawFixed]
    reports is the number of digits before the decimal point of
    [n / 10^maxFraction]: one when that value is below 1, and its decimal
    magnitude plus one otherwise. *)
Theorem toRawFixed_integer_digits (H : Host) (x : Q) (mn mx : Z) :
  0 <= fixedInteger H x mx -> 0 <= mx ->
  isNumeral (h_toString H (fixedInteger H x mx)) (fixedInteger H x mx) ->
  let y := (inject_Z (fixedInteger H x mx) / pow10 mx)%Q in
  integerDigitsCount (toRawFixedOn H x mn mx)
  = if Qlt_bool y 1 then 1 else floorLog10 y + 1.
Proof.
  intros Hn Hmx Hnum0 y. subst y.
  pose proof (fixed_numeral H _ Hnum0) as Hnum.
  unfold toRawFixedOn. cbv zeta. fold (fixedInteger H x mx).
  set (nn := fixedInteger H x mx) in *.
  set (m0 := if nn =? 0 then "0" else h_toString H nn) in *.
  assert (Hfacts : 1 <= JS.strlen m0 /\ nn < 10 ^ JS.strlen m0 /\
                   (0 < nn -> 10 ^ (JS.strlen m0 - 1) <= nn) /\
                   (nn = 0 -> JS.strlen m0 = 1)).
  { destruct Hnum as (_ & H1 & H2 & H3).
    split; [exact H1|]. split; [exact H2|].
    split; [intros Hpos; now destruct (H3 Hpos)|].
    intros Hz. subst m0. rewrite Hz. reflexivity. }
  destruct Hfacts as (HL1 & Hhi & Hlo & Hzero).
  set (L := JS.strlen m0) in *.
  pose proof (pow10_pos mx) as Hp.
  destruct (mx =? 0) eqn:Ef; cbn [negb]; cbv iota.
  - apply Z.eqb_eq in Ef. cbn [integerDigitsCount]. fold L.
    destruct (Z.eq_dec nn 0) as [Hz|Hz].
    + assert (Hy : Qlt_bool (inject_Z nn / pow10 mx) 1 = true).
      { apply Qlt_bool_iff. rewrite Hz.
        change (inject_Z 0) with 0%Q. rewrite Qdiv_zero. reflexivity. }
      rewrite Hy. now apply Hzero.
    + destruct (scaled_numeral_bounds nn L mx) as [B1 B2];
        [lia | lia | apply Hlo; lia | exact Hhi |].
      assert (H1 : (1 <= pow10 (L - 1 - mx))%Q).
      { change 1%Q with (pow10 0). apply pow10_le. lia. }
      assert (Hy : Qlt_bool (inject_Z nn / pow10 mx) 1 = false).
      { apply Qlt_bool_false_iff. lra. }
      rewrite Hy.
      rewrite (floorLog10_unique _ (L - 1 - mx)); [lia | lra | exact B1
                                                   | exact B2].
  - apply Z.eqb_neq in Ef.
    destruct (L <=? mx) eqn:Ek.
    + apply Z.leb_le in Ek. cbn [integerDigitsCount].
      rewrite strlen_slice.
      * assert (Hy : Qlt_bool (inject_Z nn / pow10 mx) 1 = true).
        { apply Qlt_bool_iff. apply Qlt_shift_div_r; [exact Hp|].
          rewrite Qmult_1_l, pow10_Z by lia. rewrite <- Zlt_Qlt.
          apply Z.lt_le_trans with (10 ^ L); [exact Hhi|].
          apply Z.pow_le_mono_r; lia. }
        rewrite Hy. lia.
      * lia.
      * rewrite strlen_append. unfold JS.repeat.
        rewrite strlen_repeatNat. fold L. lia.
    + apply Z.leb_gt in Ek. cbn [integerDigitsCount].
      rewrite strlen_slice by (fold L; lia). fold L.
      assert (Hnz : 0 < nn).
      { destruct (Z.eq_dec nn 0) as [Hz|Hz]; [|lia].
        specialize (Hzero Hz). lia. }
      destruct (scaled_numeral_bounds nn L mx) as [B1 B2];
        [lia | lia | apply Hlo; lia | exact Hhi |].
      assert (H1 : (1 <= pow10 (L - 1 - mx))%Q).
      { change 1%Q with (pow10 0). apply pow10_le. lia. }
      assert (Hy : Qlt_bool (inject_Z nn / pow10 mx) 1 = false).
      { apply Qlt_bool_false_iff. lra. }
      rewrite Hy.
      rewrite (floorLog10_unique _ (L - 1 - mx)); [lia | lra | exact B1
                                                   | exact B2].
Qed.

Lemma toRawFixed_integer_digits_witness :
  fixedInteger (binary64 floorLog10) (1999 # 2) 0 = 1000 /\
  formattedString (toRawFixedOn (binary64 floorLog10) (1999 # 2) 0 0)
  = "1000" /\
  integerDigitsCount (toRawFixedOn (binary64 floorLog10) (1999 # 2) 0 0) = 4.
Proof.
  assert (E : fixedInteger (binary64 floorLog10) (1999 # 2) 0 = 1000)
    by (vm_compute; reflexivity).
  split; [exact E|]. split; [vm_compute; reflexivity|].
  rewrite (toRawFixed_integer_digits (binary64 floorLog10) (1999 # 2) 0 0).
  - rewrite E. vm_compute. reflexivity.
  - rewrite E. lia.
  - lia.
  - numeral_by_evaluation.
Defined.

(** ** [toRawPrecision]: the digit string *)

Lemma decimal_shape_untrimmed (a b : string) :
  b <> "" ->
  (a ++ "." ++ b)%string
  = match b with
    | EmptyString => a
    | _ => (a ++ "." ++ b)%string
    end.
Proof. intros H. destruct b; [congruence | reflexivity]. Qed.

(** The trimming of [toRawPrecision] on [a.b], when it applies. *)
Lemma precision_trim (cond : bool) (cut : Z) (a b : string) :
  allDigits a = true -> allDigits b = true -> b <> "" ->
  exists b' r,
    b = (b' ++ JS.repeatNat "0" r)%string /\
    (if cond then trimPoint (trimZeros cut (a ++ "." ++ b))
     else (a ++ "." ++ b)%string)
    = match b' with
      | EmptyString => a
      | _ => (a ++ "." ++ b')%string
      end.
Proof.
  intros Ha Hb Hne. destruct cond.
  - destruct (trimmed_decimal cut a b Ha Hb) as (b' & r & Hsplit & _ & Htrim).
    exists b', r. split; assumption.
  - exists b, O. split.
    + cbn. now rewrite append_nil_r.
    + now apply decimal_shape_untrimmed.
Qed.

(** The shape of the result of [toRawPrecision] on [x > 0] when the rounded
    scaled integer [n] has [maxPrecision] digits and is printed as a
    numeral; [e] is the magnitude that the host has computed. *)
Lemma toRawPrecisionOn_layout (H : Host) (x : Q) (mn mx : Z) :
  let e := h_log10Floor H x in
  let n := precisionInteger H x mx in
  (0 < x)%Q -> 1 <= mn <= mx -> 10 ^ (mx - 1) <= n < 10 ^ mx ->
  isNumeral (h_toString H n) n ->
  exists a b' r,
    allDigits a = true /\ allDigits b' = true /\ 0 <= r /\
    JS.strlen a = Z.max (e + 1) 1 /\
    JS.strlen b' + r = Z.max 0 (mx - 1 - e) /\
    numeralValueFrom (a ++ b') 0 * 10 ^ r
    = numeralValueFrom (h_toString H n) 0 * 10 ^ Z.max 0 (e - mx + 1) /\
    integerDigitsCount (toRawPrecisionOn H x mn mx) = JS.strlen a /\
    formattedString (toRawPrecisionOn H x mn mx)
    = match b' with
      | EmptyString => a
      | _ => (a ++ "." ++ b')%string
      end.
Proof.
  intros e n Hx Hp [Hnlo Hcarry] Hnum.
  destruct (numeral_length _ _ mx Hnum ltac:(lia) Hnlo) as [HL HU].
  specialize (HU Hcarry).
  destruct Hnum as (Hall & _).
  unfold toRawPrecisionOn.
  destruct (Qeq_bool x 0) eqn:E.
  { apply Qeq_bool_iff in E. rewrite E in Hx. discriminate. }
  cbv zeta. fold (precisionInteger H x mx). fold e. fold n.
  set (D := h_toString H n) in *.
  assert (HLen : JS.strlen D = mx) by lia.
  destruct (e >=? mx - 1) eqn:E1; [|destruct (e >=? 0) eqn:E2];
    cbn [formattedString integerDigitsCount].
  - apply Z.geb_le in E1.
    assert (Hda : allDigits (D ++ JS.repeat "0" (e - mx + 1)) = true)
      by now rewrite allDigits_append, Hall, allDigits_zeros.
    unfold JS.indexOf. rewrite indexOfFrom_allDigits by exact Hda.
    change (-1 >=? 0) with false. cbn [andb].
    exists (D ++ JS.repeat "0" (e - mx + 1))%string, "", 0.
    rewrite append_nil_r.
    split; [exact Hda|]. split; [reflexivity|]. split; [lia|].
    assert (Hz : JS.strlen (JS.repeat "0" (e - mx + 1)) = e - mx + 1).
    { unfold JS.repeat. rewrite strlen_repeatNat. lia. }
    split; [rewrite strlen_append, Hz; lia|].
    split; [change (JS.strlen "") with 0; lia|].
    split.
    { rewrite numeralValueFrom_append. unfold JS.repeat.
      rewrite numeralValueFrom_zeros, Z2Nat.id by lia.
      rewrite Z.max_r by lia. change (10 ^ 0) with 1. lia. }
    split; [rewrite strlen_append, Hz; lia | reflexivity].
  - rewrite Z.geb_leb in E1. apply Z.leb_gt in E1. apply Z.geb_le in E2.
    destruct (slice_split D (e + 1)) as (a & b & Hab & Ha & Hsa & Hsb); [lia|].
    rewrite Hsa, Hsb.
    rewrite Hab, allDigits_append in Hall. apply andb_true_iff in Hall.
    destruct Hall as [Hda Hdb].
    assert (Hlb : JS.strlen b = mx - 1 - e).
    { rewrite Hab, strlen_append in HLen. lia. }
    assert (Hne : b <> "").
    { intros ->. change (JS.strlen "") with 0 in Hlb. lia. }
    destruct (precision_trim
                ((JS.indexOf (a ++ "." ++ b) "." >=? 0) && (mx >? mn))
                (mx - mn) a b Hda Hdb Hne) as (b' & r & Hb & ->).
    exists a, b', (Z.of_nat r).
    assert (Hdb' : allDigits b' = true).
    { rewrite Hb, allDigits_append in Hdb. apply andb_true_iff in Hdb. tauto. }
    rewrite Hb, strlen_append, strlen_repeatNat in Hlb.
    split; [exact Hda|]. split; [exact Hdb'|]. split; [lia|].
    split; [lia|]. split; [lia|].
    split.
    { rewrite Z.max_l by lia. change (10 ^ 0) with 1.
      rewrite Z.mul_1_r, Hab, Hb, <- append_assoc.
      rewrite (numeralValueFrom_append (a ++ b')), numeralValueFrom_zeros.
      reflexivity. }
    split; [lia | reflexivity].
  - rewrite Z.geb_leb in E2. apply Z.leb_gt in E2.
    assert (Hdb : allDigits (JS.repeat "0" (- e - 1) ++ D) = true)
      by now rewrite allDigits_append, Hall, allDigits_zeros.
    assert (Hlb : JS.strlen (JS.repeat "0" (- e - 1) ++ D) = mx - 1 - e).
    { rewrite strlen_append. unfold JS.repeat. rewrite strlen_repeatNat. lia. }
    assert (Hne : (JS.repeat "0" (- e - 1) ++ D)%string <> "").
    { intros Hnil. rewrite Hnil in Hlb.
      change (JS.strlen "") with 0 in Hlb. lia. }
    change ("0." ++ JS.repeat "0" (- e - 1) ++ D)%string
      with ("0" ++ "." ++ (JS.repeat "0" (- e - 1) ++ D))%string.
    destruct (precision_trim
                ((JS.indexOf ("0" ++ "." ++ (JS.repeat "0" (- e - 1) ++ D)) "."
                  >=? 0) && (mx >? mn))
                (mx - mn) "0" (JS.repeat "0" (- e - 1) ++ D)%string
                eq_refl Hdb Hne) as (b' & r & Hb & ->).
    exists "0", b', (Z.of_nat r).
    assert (Hdb' : allDigits b' = true).
    { rewrite Hb, allDigits_append in Hdb. apply andb_true_iff in Hdb. tauto. }
    assert (Hv : numeralValueFrom (JS.repeat "0" (- e - 1) ++ D) 0
                 = numeralValueFrom D 0).
    { rewrite numeralValueFrom_append. unfold JS.repeat.
      rewrite numeralValueFrom_zeros, Z.mul_0_l. reflexivity. }
    rewrite Hb, strlen_append, strlen_repeatNat in Hlb.
    split; [reflexivity|]. split; [exact Hdb'|]. split; [lia|].
    split; [change (JS.strlen "0") with 1; lia|]. split; [lia|].
    split.
    { rewrite Z.max_l by lia. change (10 ^ 0) with 1.
      rewrite Z.mul_1_r, <- Hv, Hb.
      change ("0" ++ b')%string with (String "0" b').
      cbn [numeralValueFrom]. change (digitValue "0") with (Some O).
      cbv iota. change (0 * 10 + Z.of_nat 0) with 0.
      rewrite numeralValueFrom_append, numeralValueFrom_zeros. reflexivity. }
    split; reflexivity.
Qed.

(** The digit string of [toRawPrecision] reads as [n * 10^(e - p + 1)] when
    [n] has [p = maxPrecision] digits and is printed as its decimal
    numeral. *)
Lemma toRawPrecisionOn_value (H : Host) (x : Q) (mn mx : Z) :
  let e := h_log10Floor H x in
  let n := precisionInteger H x mx in
  (0 < x)%Q -> 1 <= mn <= mx -> 10 ^ (mx - 1) <= n < 10 ^ mx ->
  h_toString H n = JS.toString n ->
  (decimalValue (formattedString (toRawPrecisionOn H x mn mx))
   == inject_Z n * pow10 (e - mx + 1))%Q.
Proof.
  intros e n Hx Hp Hn Hprint.
  assert (Hn0 : 0 <= n).
  { apply Z.le_trans with (10 ^ (mx - 1)); [apply Z.pow_nonneg; lia | lia]. }
  destruct (prints_numeral H n Hn0 Hprint) as [Hnum Hv0].
  assert (Hnz : (n =? 0) = false).
  { apply Z.eqb_neq. intros Hz.
    assert (0 < 10 ^ (mx - 1)) by (apply Z.pow_pos_nonneg; lia). lia. }
  rewrite Hnz in Hv0.
  destruct (toRawPrecisionOn_layout H x mn mx Hx Hp Hn Hnum)
    as (a & b' & r & Ha & Hb & Hr & Hla & Hlen & Hv & _ & ->).
  fold n in Hv. fold e in Hv, Hlen. rewrite Hv0 in Hv.
  unfold decimalValue.
  rewrite fractionLength_shape, numeralValueFrom_shape by exact Ha.
  rewrite (decimal_rescale _ (JS.strlen b') r)
    by (try apply strlen_nonneg; lia).
  rewrite Hv, Hlen.
  destruct (Z_le_gt_dec (mx - 1) e) as [He|He].
  - rewrite (Z.max_r 0 (e - mx + 1)), (Z.max_l 0 (mx - 1 - e)) by lia.
    rewrite inject_Z_mult, <- pow10_Z by lia.
    change (pow10 0) with 1%Q. field.
  - rewrite (Z.max_l 0 (e - mx + 1)), (Z.max_r 0 (mx - 1 - e)) by lia.
    change (10 ^ 0) with 1. rewrite Z.mul_1_r.
    replace (e - mx + 1) with (- (mx - 1 - e)) by lia.
    rewrite pow10_opp. reflexivity.
Qed.

(** X4: for [x > 0] and [1 <= minPrecision <= maxPrecision], with [e] the
    magnitude and [n] the rounded scaled integer that the host computes,
    whatever they are: when [n] has [maxPrecision] digits and is printed
    as a decimal numeral (as the host does below 1e21), the digit string
    of [toRawPrecision] has as many digits before the decimal point as the
    reported integer-digit count, which is [e + 1] and at least one; it
    has at most [maxPrecision - 1 - e] fraction digits and never ends in
    the decimal point. *)
Theorem toRawPrecision_digit_counts (H : Host) (x : Q) (mn mx : Z) :
  (0 < x)%Q -> 1 <= mn <= mx ->
  10 ^ (mx - 1) <= precisionInteger H x mx < 10 ^ mx ->
  isNumeral (h_toString H (precisionInteger H x mx))
    (precisionInteger H x mx) ->
  let e := h_log10Floor H x in
  let r := toRawPrecisionOn H x mn mx in
  integerPartLength (formattedString r) = integerDigitsCount r /\
  integerDigitsCount r = Z.max (e + 1) 1 /\
  fractionLength (formattedString r) <= Z.max 0 (mx - 1 - e) /\
  JS.endsWith (formattedString r) "." = false.
Proof.
  intros Hx Hp Hn Hnum. cbv zeta.
  destruct (toRawPrecisionOn_layout H x mn mx Hx Hp Hn Hnum)
    as (a & b' & r & Ha & Hb & Hr & Hla & Hlen & _ & -> & ->).
  rewrite integerPartLength_shape, fractionLength_shape by exact Ha.
  split; [reflexivity|]. split; [exact Hla|]. split; [lia|].
  destruct b' as [|c b']; [now apply endsWith_allDigits|].
  change (a ++ "." ++ String c b')%string
    with (a ++ (String "." (String c b')))%string.
  rewrite endsWith_append by discriminate.
  rewrite endsWith_cons by discriminate.
  now apply endsWith_allDigits.
Qed.

Lemma toRawPrecision_digit_counts_witness :
  let r := toRawPrecisionOn (binary64 floorLog10) (197 # 16) 2 4 in
  precisionInteger (binary64 floorLog10) (197 # 16) 4 = 1231 /\
  formattedString r = "12.31" /\
  integerPartLength (formattedString r) = integerDigitsCount r /\
  integerDigitsCount r = 2.
Proof.
  assert (E : precisionInteger (binary64 floorLog10) (197 # 16) 4 = 1231)
    by (vm_compute; reflexivity).
  destruct (toRawPrecision_digit_counts (binary64 floorLog10) (197 # 16) 2 4)
    as (H1 & H2 & _).
  - reflexivity.
  - lia.
  - rewrite E. lia.
  - numeral_by_evaluation.
  - cbv zeta. split; [exact E|]. split; [vm_compute; reflexivity|].
    split; [exact H1|]. rewrite H2. vm_compute. reflexivity.
Defined.

(** X5: for [x > 0] and [1 <= minPrecision <= maxPrecision], with [e] the
    magnitude and [n] the rounded scaled integer that the host computes,
    whatever they are: when [n] has [maxPrecision] digits and is printed
    as its decimal numeral (as the host does below [2^53]), the digit
    string of [toRawPrecision], read as a decimal numeral, is
    [n * 10^(e - maxPrecision + 1)]; the rounded number returned is the
    host's product of the same two factors. *)
Theorem toRawPrecision_string_value (H : Host) (x : Q) (mn mx : Z) :
  (0 < x)%Q -> 1 <= mn <= mx ->
  10 ^ (mx - 1) <= precisionInteger H x mx < 10 ^ mx ->
  h_toString H (precisionInteger H x mx)
  = JS.toString (precisionInteger H x mx) ->
  let e := h_log10Floor H x in
  let n := precisionInteger H x mx in
  (decimalValue (formattedString (toRawPrecisionOn H x mn mx))
   == inject_Z n * pow10 (e - mx + 1))%Q /\
  roundedNumber (toRawPrecisionOn H x mn mx)
  = h_mul H (inject_Z n) (h_pow10 H (e - mx + 1)).
Proof.
  intros Hx Hp Hn Hprint e n.
  split; [now apply toRawPrecisionOn_value|].
  unfold toRawPrecisionOn.
  destruct (Qeq_bool x 0) eqn:E.
  { apply Qeq_bool_iff in E. rewrite E in Hx. discriminate. }
  cbv zeta. fold (precisionInteger H x mx). fold e. fold n.
  destruct (e >=? mx - 1); [|destruct (e >=? 0)]; reflexivity.
Qed.

Lemma toRawPrecision_string_value_witness :
  precisionInteger (binary64 floorLog10) (197 # 16) 4 = 1231 /\
  formattedString (toRawPrecisionOn (binary64 floorLog10) (197 # 16) 2 4)
  = "12.31" /\
  (decimalValue
     (formattedString (toRawPrecisionOn (binary64 floorLog10) (197 # 16) 2 4))
   == 1231 # 100)%Q.
Proof.
  assert (E : precisionInteger (binary64 floorLog10) (197 # 16) 4 = 1231)
    by (vm_compute; reflexivity).
  split; [exact E|]. split; [vm_compute; reflexivity|].
  destruct (toRawPrecision_string_value (binary64 floorLog10) (197 # 16) 2 4)
    as [Hv _].
  - reflexivity.
  - lia.
  - rewrite E. lia.
  - rewrite E. reflexivity.
  - rewrite Hv, E. vm_compute. reflexivity.
Defined.

(** X6: for [x > 0] and [1 <= minPrecision <= maxPrecision], with [e] the
    magnitude and [n] the rounded scaled integer that the host computes:
    when [n] has [maxPrecision] digits and is printed as its decimal
    numeral, and the host's quotient is the exact
    [x / 10^(e - maxPrecision + 1)], the digit string of [toRawPrecision],
    read as a decimal numeral, differs from [x] by at most half a unit of
    its last significant digit, [10^(e - maxPrecision + 1) / 2]. *)
Theorem toRawPrecision_rounding_error (H : Host) (x : Q) (mn mx : Z) :
  (0 < x)%Q -> 1 <= mn <= mx ->
  10 ^ (mx - 1) <= precisionInteger H x mx < 10 ^ mx ->
  h_toString H (precisionInteger H x mx)
  = JS.toString (precisionInteger H x mx) ->
  let e := h_log10Floor H x in
  (h_div H x (h_pow10 H (e - mx + 1)) == x / pow10 (e - mx + 1))%Q ->
  (Qabs (decimalValue (formattedString (toRawPrecisionOn H x mn mx)) - x)
   <= (1 # 2) * pow10 (e - mx + 1))%Q.
Proof.
  intros Hx Hp Hn Hprint e Hexact.
  rewrite (toRawPrecisionOn_value H x mn mx Hx Hp Hn Hprint). fold e.
  set (u := pow10 (e - mx + 1)) in *.
  assert (Hu : (0 < u)%Q) by apply pow10_pos.
  pose proof (nearestHalfUp_error _ _
                (roundExact_nearest (h_div H x (h_pow10 H (e - mx + 1)))))
    as He.
  fold e in He. unfold precisionInteger. fold e.
  set (n := roundExact (h_div H x (h_pow10 H (e - mx + 1)))) in *.
  rewrite Hexact in He.
  apply Qabs_Qle_condition in He. destruct He as [He1 He2].
  apply Qabs_Qle_condition.
  assert (E : (inject_Z n * u - x == (inject_Z n - x / u) * u)%Q).
  { field. lra. }
  rewrite E. split.
  - setoid_replace (- ((1 # 2) * u))%Q with ((- (1 # 2)) * u)%Q by ring.
    apply Qmult_le_compat_r; [exact He1 | lra].
  - apply Qmult_le_compat_r; [exact He2 | lra].
Qed.

Lemma toRawPrecision_rounding_error_witness :
  precisionInteger (binary64 floorLog10) (197 # 16) 4 = 1231 /\
  (h_div (binary64 floorLog10) (197 # 16)
     (h_pow10 (binary64 floorLog10) (-2)) == 4925 # 4)%Q /\
  (Qabs (decimalValue
           (formattedString
              (toRawPrecisionOn (binary64 floorLog10) (197 # 16) 2 4))
         - (197 # 16))
   <= (1 # 2) * pow10 (-2))%Q.
Proof.
  assert (E : precisionInteger (binary64 floorLog10) (197 # 16) 4 = 1231)
    by (vm_compute; reflexivity).
  split; [exact E|]. split; [vm_compute; reflexivity|].
  apply (toRawPrecision_rounding_error (binary64 floorLog10) (197 # 16) 2 4).
  - reflexivity.
  - lia.
  - rewrite E. lia.
  - rewrite E. reflexivity.
  - vm_compute. reflexivity.
Defined.

(** ** The tie rule *)




(** ** [formatNumberToString]: sign and padding *)

Lemma floorLog10_eq (x y : Q) : (x == y)%Q -> floorLog10 x = floorLog10 y.
Proof.
  intros H. unfold floorLog10.
  rewrite (Qfloor_comp _ _ H).
  assert (Hinv : (/ x == / y)%Q) by now rewrite H.
  rewrite (Qceiling_comp _ _ Hinv).
  assert (Hle : Qle_bool 1 x = Qle_bool 1 y) by now rewrite H.
  now rewrite Hle.
Qed.

Lemma toRawFixed_comp (x y : Q) (mn mx : Z) :
  (x == y)%Q -> toRawFixed x mn mx = toRawFixed y mn mx.
Proof.
  intros H. unfold toRawFixed.
  rewrite (roundExact_comp (x * pow10 mx) (y * pow10 mx)) by now rewrite H.
  rewrite (Qred_complete (x / pow10 mx) (y / pow10 mx)) by now rewrite H.
  reflexivity.
Qed.

Lemma toRawPrecision_comp (x y : Q) (mn mx : Z) :
  (x == y)%Q -> toRawPrecision x mn mx = toRawPrecision y mn mx.
Proof.
  intros H. unfold toRawPrecision.
  assert (Hz : Qeq_bool x 0 = Qeq_bool y 0) by now rewrite H.
  rewrite Hz, (floorLog10_eq x y H).
  rewrite (roundExact_comp (x / pow10 (floorLog10 y - mx + 1))
             (y / pow10 (floorLog10 y - mx + 1))) by now rewrite H.
  reflexivity.
Qed.

Lemma roundMagnitude_comp (nf : UnifiedNumberFormat) (x y : Q) :
  (x == y)%Q -> roundMagnitude nf x = roundMagnitude nf y.
Proof.
  intros H. unfold roundMagnitude.
  now rewrite (toRawFixed_comp x y _ _ H), (toRawFixed_comp x y 0 0 H),
    (toRawPrecision_comp x y _ _ H), (toRawPrecision_comp x y 1 2 H).
Qed.

(** X7: [formatNumberToString] rounds a negative number as its magnitude:
    for [q > 0] the digit string of [-q] is that of [q], without a sign,
    and its rounded number is the negation of that of [q] (the negative
    zero when [q] rounds to zero). *)
Theorem formatNumberToString_negation (nf : UnifiedNumberFormat) (q : Q) :
  (0 < q)%Q ->
  fn_formattedString (formatNumberToString nf (Real (- q)))
  = fn_formattedString (formatNumberToString nf (Real q)) /\
  fn_roundedNumber (formatNumberToString nf (Real (- q)))
  = negate (fn_roundedNumber (formatNumberToString nf (Real q))).
Proof.
  intros Hq.
  assert (Hpos : ltZero (Real q) || isNegInfinity (reciprocal (Real q))
                 = false).
  { unfold ltZero. cbn [toQ reciprocal].
    assert (H1 : Qlt_bool q 0 = false)
      by (apply Qlt_bool_false_iff; lra).
    rewrite H1. destruct (Qeq_bool q 0); reflexivity. }
  assert (Hneg : ltZero (Real (- q)) = true).
  { unfold ltZero. cbn [toQ]. apply Qlt_bool_iff. lra. }
  assert (Hnz : Qeq_bool (- q) 0 = false).
  { destruct (Qeq_bool (- q) 0) eqn:E; [|reflexivity].
    apply Qeq_bool_iff in E. lra. }
  assert (Hmag : roundMagnitude nf (toQ (negate (Real (- q))))
                 = roundMagnitude nf q).
  { apply roundMagnitude_comp. cbn [negate]. rewrite Hnz. cbn [toQ].
    rewrite Qred_correct. ring. }
  unfold formatNumberToString. cbv zeta.
  rewrite Hpos, Hneg. cbn [orb]. cbv iota. rewrite Hmag.
  cbn [fn_formattedString fn_roundedNumber toQ].
  split; reflexivity.
Qed.

Lemma formatNumberToString_negation_witness :
  fn_formattedString (formatNumberToString En.decimalFormat (Real (- (5 # 4))))
  = "1.25" /\
  fn_roundedNumber (formatNumberToString En.decimalFormat (Real (- (5 # 4))))
  = negate
      (fn_roundedNumber (formatNumberToString En.decimalFormat (Real (5 # 4)))).
Proof.
  destruct (formatNumberToString_negation En.decimalFormat (5 # 4))
    as [Hs Hr].
  - reflexivity.
  - split; [rewrite Hs; vm_compute; reflexivity | exact Hr].
Defined.

Lemma fractionLength_cons_zero (t : string) :
  fractionLength (String "0" t) = fractionLength t.
Proof.
  unfold fractionLength, JS.indexOf.
  cbn [JS.indexOfFrom]. change (Ascii.eqb "0" ".") with false. cbv iota.
  rewrite strlen_cons, indexOfFrom_shift.
  destruct (JS.indexOfFrom t "." 0 <? 0) eqn:E.
  - reflexivity.
  - apply Z.ltb_ge in E.
    destruct (0 + 1 + JS.indexOfFrom t "." 0 <? 0) eqn:E';
      [apply Z.ltb_lt in E'; lia | lia].
Qed.

Lemma fractionLength_zeros (k : nat) (s : string) :
  fractionLength (JS.repeatNat "0" k ++ s) = fractionLength s.
Proof.
  induction k as [|k IH]; [reflexivity|].
  change (JS.repeatNat "0" (S k) ++ s)%string
    with (String "0" (JS.repeatNat "0" k ++ s)).
  now rewrite fractionLength_cons_zero.
Qed.

Lemma decimalValue_zeros (k : nat) (s : string) :
  decimalValue (JS.repeatNat "0" k ++ s) = decimalValue s.
Proof.
  unfold decimalValue.
  rewrite fractionLength_zeros, numeralValueFrom_append,
    numeralValueFrom_zeros.
  reflexivity.
Qed.

(** The integer part of the digit string of [toRawFixed] has the reported
    number of digits. *)
Lemma toRawFixedOn_integerDigitsCount (H : Host) (x : Q) (mn mx : Z) :
  0 <= mn <= mx ->
  isNumeral (h_toString H (fixedInteger H x mx)) (fixedInteger H x mx) ->
  integerPartLength (formattedString (toRawFixedOn H x mn mx))
  = integerDigitsCount (toRawFixedOn H x mn mx).
Proof.
  intros Hmx Hnum.
  destruct (toRawFixedOn_shape H x mn mx Hmx Hnum)
    as (a & b' & r & Ha & _ & _ & _ & _ & _ & -> & ->).
  now apply integerPartLength_shape.
Qed.

(** X8: in the [fractionDigits] mode, for [q >= 0] and whatever the host
    computes for the scaled value, when the rounded integer [n] of
    [toRawFixed] is printed as a decimal numeral (as the host does below
    1e21), the integer part of the result of [formatNumberToString] has the
    larger of the integer-digit count of the rounding and
    [minimumIntegerDigits]; the zeros put in front change neither the
    fraction digits nor the value the string reads as, and the rounded
    number is the one of [toRawFixed]. *)
Theorem fractionDigits_integer_padding (H : Host) (nf : UnifiedNumberFormat)
  (q : Q) :
  roundingType nf = RoundingType.fractionDigits ->
  (0 <= q)%Q ->
  0 <= minimumFractionDigits nf <= maximumFractionDigits nf ->
  isNumeral
    (h_toString H (fixedInteger H q (maximumFractionDigits nf)))
    (fixedInteger H q (maximumFractionDigits nf)) ->
  let raw := toRawFixedOn H q (minimumFractionDigits nf)
               (maximumFractionDigits nf) in
  let r := formatNumberToStringOn H nf (Real q) in
  integerPartLength (fn_formattedString r)
  = Z.max (integerDigitsCount raw) (minimumIntegerDigits nf) /\
  fractionLength (fn_formattedString r)
  = fractionLength (formattedString raw) /\
  decimalValue (fn_formattedString r) = decimalValue (formattedString raw) /\
  fn_roundedNumber r = Real (roundedNumber raw).
Proof.
  intros Hr Hq Hfd Hnum raw r.
  assert (Hneg : ltZero (Real q) || isNegInfinity (reciprocal (Real q))
                 = false).
  { unfold ltZero. cbn [toQ reciprocal].
    assert (Hlt0 : Qlt_bool q 0 = false)
      by (apply Qlt_bool_false_iff; exact Hq).
    rewrite Hlt0. destruct (Qeq_bool q 0); reflexivity. }
  pose proof (toRawFixedOn_integerDigitsCount H q _ _ Hfd Hnum) as Hint.
  fold raw in Hint.
  subst r. unfold formatNumberToStringOn. cbv zeta. rewrite Hneg.
  cbn [toQ fn_formattedString fn_roundedNumber].
  unfold roundMagnitudeOn. rewrite Hr. fold raw.
  destruct (integerDigitsCount raw <? minimumIntegerDigits nf) eqn:E.
  - apply Z.ltb_lt in E. unfold JS.repeat.
    rewrite integerPartLength_zeros, fractionLength_zeros,
      decimalValue_zeros, Hint.
    split; [lia|]. split; [reflexivity|]. split; reflexivity.
  - apply Z.ltb_ge in E. rewrite Hint.
    split; [lia|]. split; [reflexivity|]. split; reflexivity.
Qed.

Lemma fractionDigits_integer_padding_witness :
  let H := binary64 floorLog10 in
  fixedInteger H (5 # 4) 2 = 125 /\
  fn_formattedString (formatNumberToStringOn H integer3 (Real (5 # 4)))
  = "001.25" /\
  integerPartLength
    (fn_formattedString (formatNumberToStringOn H integer3 (Real (5 # 4))))
  = 3.
Proof.
  cbv zeta.
  assert (E : fixedInteger (binary64 floorLog10) (5 # 4) 2 = 125)
    by (vm_compute; reflexivity).
  split; [exact E|]. split; [vm_compute; reflexivity|].
  destruct (fractionDigits_integer_padding (binary64 floorLog10) integer3
              (5 # 4)) as (Hlen & _).
  - reflexivity.
  - discriminate.
  - vm_compute. split; discriminate.
  - numeral_by_evaluation.
  - rewrite Hlen. vm_compute. reflexivity.
Defined.

(** ** [computeExponent] by notation *)



(** ** The pattern split *)

Lemma joinAll_app (l1 l2 : list string) :
  joinAll (l1 ++ l2) = (joinAll l1 ++ joinAll l2)%string.
Proof.
  induction l1 as [|x l1 IH]; [reflexivity|].
  cbn [joinAll app]. now rewrite IH, append_assoc.
Qed.

Lemma joinAll_pushNonEmpty (parts : list string) (s : string) :
  joinAll (pushNonEmpty parts s) = (joinAll parts ++ s)%string.
Proof.
  destruct s as [|c s]; cbn [pushNonEmpty].
  - now rewrite append_nil_r.
  - rewrite joinAll_app. cbn [joinAll]. now rewrite append_nil_r.
Qed.

Lemma nonEmpty_pushNonEmpty (parts : list string) (s : string) :
  Forall (fun part => part <> "") parts ->
  Forall (fun part => part <> "") (pushNonEmpty parts s).
Proof.
  intros H. destruct s as [|c s]; cbn [pushNonEmpty]; [exact H|].
  apply Forall_app. split; [exact H|].
  constructor; [discriminate | constructor].
Qed.

(** Both sides are the same text up to the grouping of the appends. *)
Ltac same_text :=
  repeat first [ rewrite append_assoc
               | rewrite append_nil_r
               | progress cbn [append openText joinAll] ];
  reflexivity.

Lemma splitLoop_join (s : string) :
  forall parts lit open,
  joinAll (splitLoop s parts lit open)
  = (joinAll parts ++ lit ++ openText open ++ s)%string.
Proof.
  induction s as [|c s IH]; intros parts lit open.
  - cbn [splitLoop]. destruct open as [w|];
      rewrite joinAll_pushNonEmpty; same_text.
  - cbn [splitLoop]. destruct open as [w|].
    + destruct (isWordChar c); [rewrite IH; same_text|].
      destruct (Ascii.eqb c "}" && negb (String.eqb w "")) eqn:E.
      { apply andb_true_iff in E. destruct E as [Ec _].
        apply Ascii.eqb_eq in Ec. subst c.
        rewrite IH, joinAll_app, joinAll_pushNonEmpty. same_text. }
      destruct (Ascii.eqb_spec c "{"%char) as [->|Hc]; rewrite IH; same_text.
    + destruct (Ascii.eqb_spec c "{"%char) as [->|Hc]; rewrite IH; same_text.
Qed.

Lemma splitLoop_nonEmpty (s : string) :
  forall parts lit open,
  Forall (fun part => part <> "") parts ->
  Forall (fun part => part <> "") (splitLoop s parts lit open).
Proof.
  induction s as [|c s IH]; intros parts lit open H.
  - cbn [splitLoop]. destruct open; now apply nonEmpty_pushNonEmpty.
  - cbn [splitLoop]. destruct open as [w|].
    + destruct (isWordChar c); [now apply IH|].
      destruct (Ascii.eqb c "}" && negb (String.eqb w "")).
      { apply IH. apply Forall_app. split.
        - now apply nonEmpty_pushNonEmpty.
        - constructor; [discriminate | constructor]. }
      destruct (Ascii.eqb c "{"); now apply IH.
    + destruct (Ascii.eqb c "{"); now apply IH.
Qed.

(** X10: the pattern split loses no text and yields no empty piece: the
    pieces, joined in order, are the pattern, and each piece is
    non-empty. *)
Theorem splitPattern_partition (pattern : string) :
  joinAll (splitPattern pattern) = pattern /\
  Forall (fun part => part <> "") (splitPattern pattern).
Proof.
  unfold splitPattern. split.
  - rewrite splitLoop_join. reflexivity.
  - apply splitLoop_nonEmpty. constructor.
Qed.

Lemma splitLoop_literal (s : string) :
  forall rest parts lit,
  noOpeningBrace s = true ->
  splitLoop (s ++ rest) parts lit None = splitLoop rest parts (lit ++ s) None.
Proof.
  induction s as [|c s IH]; intros rest parts lit H.
  - now rewrite append_nil_r.
  - cbn [noOpeningBrace] in H. apply andb_true_iff in H. destruct H as [Hc Hs].
    apply negb_true_iff in Hc. cbn [append splitLoop]. rewrite Hc.
    rewrite IH by exact Hs. f_equal. same_text.
Qed.

Lemma splitLoop_word (w : string) :
  forall rest parts lit w0,
  allWordChars w = true ->
  splitLoop (w ++ rest) parts lit (Some w0)
  = splitLoop rest parts lit (Some (w0 ++ w)%string).
Proof.
  induction w as [|c w IH]; intros rest parts lit w0 H.
  - now rewrite append_nil_r.
  - cbn [allWordChars] in H. apply andb_true_iff in H. destruct H as [Hc Hw].
    cbn [append splitLoop]. rewrite Hc. rewrite IH by exact Hw.
    f_equal. f_equal. same_text.
Qed.

Lemma splitLoop_placeholder (name rest : string) (parts : list string)
  (lit : string) :
  name <> "" -> allWordChars name = true ->
  splitLoop (renderItem (Placeholder name) ++ rest) parts lit None
  = splitLoop rest (pushNonEmpty parts lit ++ [renderItem (Placeholder name)])
      "" None.
Proof.
  intros Hne Hw. cbn [renderItem].
  change (("{" ++ name ++ "}") ++ rest)%string
    with (String "{" ((name ++ "}") ++ rest)).
  cbn [splitLoop]. change (Ascii.eqb "{" "{") with true. cbv iota.
  rewrite append_assoc, splitLoop_word by exact Hw.
  cbn [append splitLoop]. change (isWordChar "}") with false.
  change (Ascii.eqb "}" "}") with true. cbv iota. cbn [andb].
  destruct (String.eqb_spec name "") as [E|_]; [contradiction|].
  reflexivity.
Qed.

Lemma splitLoop_items (items : list PatternItem) :
  forall parts lit,
  wellFormedItems items = true ->
  match items with
  | Literal _ :: _ => lit = ""
  | _ => True
  end ->
  splitLoop (joinAll (map renderItem items)) parts lit None
  = (pushNonEmpty parts lit ++ map renderItem items)%list.
Proof.
  induction items as [|item rest IH]; intros parts lit H Hlit.
  - cbn. now rewrite app_nil_r.
  - destruct item as [text|name].
    + subst lit. cbn [wellFormedItems] in H.
      apply andb_true_iff in H. destruct H as [H Hrest].
      apply andb_true_iff in H. destruct H as [H Hadj].
      apply andb_true_iff in H. destruct H as [Hne Hnb].
      apply negb_true_iff in Hne.
      cbn [map joinAll renderItem pushNonEmpty].
      rewrite splitLoop_literal by exact Hnb. cbn [append].
      rewrite IH;
        [| exact Hrest
         | destruct rest as [|[|]]; [exact I | discriminate | exact I]].
      destruct text as [|c text]; [discriminate|].
      cbn [pushNonEmpty]. rewrite <- app_assoc. reflexivity.
    + cbn [wellFormedItems] in H.
      apply andb_true_iff in H. destruct H as [H Hrest].
      apply andb_true_iff in H. destruct H as [Hne Hw].
      apply negb_true_iff in Hne.
      cbn [map joinAll].
      rewrite splitLoop_placeholder; [| intros ->; discriminate | exact Hw].
      rewrite IH;
        [| exact Hrest | destruct rest as [|[|]]; reflexivity || exact I].
      cbn [pushNonEmpty]. rewrite <- app_assoc. reflexivity.
Qed.

(** X11: a pattern written as a sequence of placeholders (a non-empty word
    in braces) and literals (non-empty text without an opening brace, no two
    in a row) is split back into exactly these items. *)
Theorem splitPattern_of_items (items : list PatternItem) :
  wellFormedItems items = true ->
  splitPattern (joinAll (map renderItem items)) = map renderItem items.
Proof.
  intros H. unfold splitPattern.
  rewrite splitLoop_items; [reflexivity | exact H |].
  destruct items as [|[|]]; reflexivity || exact I.
Qed.

Lemma splitPattern_of_items_witness :
  splitPattern "{number} {unitName}" = ["{number}"; " "; "{unitName}"].
Proof.
  apply (splitPattern_of_items
           [Placeholder "number"; Literal " "; Placeholder "unitName"]).
  reflexivity.
Defined.

(** ** The number token *)

Lemma groupLoop_spec (n : string) (fuel : nat) :
  forall i groups,
  -3 < i -> i + 3 <= JS.strlen n -> i <= Z.of_nat fuel ->
  exists new i',
    groupLoop fuel n i groups = ((groups ++ new)%list, i') /\
    -3 < i' <= 0 /\ i' <= i /\
    Forall (fun g => JS.strlen g = 3) new /\
    joinAll (rev new) = JS.slice n (i' + 3) (i + 3).
Proof.
  induction fuel as [|fuel IH]; intros i groups Hlo Hhi Hfuel.
  - exists [], i. cbn [groupLoop]. rewrite app_nil_r.
    split; [reflexivity|]. split; [lia|]. split; [lia|].
    split; [constructor|]. cbn. symmetry. apply slice_empty. lia.
  - cbn [groupLoop]. destruct (i >? 0) eqn:E.
    + apply Z.gtb_lt in E.
      destruct (IH (i - 3) (groups ++ [JS.slice n i (i + 3)])%list
                  ltac:(lia) ltac:(lia) ltac:(lia))
        as (new & i' & Hloop & Hi' & Hle & Hall & Hjoin).
      exists (JS.slice n i (i + 3) :: new), i'.
      split; [rewrite Hloop, <- app_assoc; reflexivity|].
      split; [lia|]. split; [lia|].
      split.
      * constructor; [|exact Hall]. rewrite strlen_slice by lia. lia.
      * cbn [rev]. rewrite joinAll_app, Hjoin. cbn [joinAll].
        rewrite append_nil_r.
        replace (i - 3 + 3) with i by lia.
        apply slice_concat; lia.
    + rewrite Z.gtb_ltb in E. apply Z.ltb_ge in E.
      exists [], i. rewrite app_nil_r.
      split; [reflexivity|]. split; [lia|]. split; [lia|].
      split; [constructor|]. cbn. symmetry. apply slice_empty. lia.
Qed.

Lemma popGroups_interleave (first : string) (rest : list string)
  (sep : string) :
  popGroups (first :: rest) sep
  = mkPart PartType.integer first
    :: flat_map (fun g => [mkPart PartType.group sep;
                           mkPart PartType.integer g]) rest.
Proof.
  revert first. induction rest as [|g rest IH]; intros first.
  - reflexivity.
  - cbn [popGroups flat_map app]. rewrite <- IH. reflexivity.
Qed.

(** X12: with grouping and no digit table, a non-empty string of digits is
    cut from the right into groups of three, the first group having one to
    three digits; the parts pushed are the groups as [integer] parts, in
    order, with a [group] part of the locale's separator between each two,
    and the digit string is left as it was. *)
Theorem grouping_of_integer_digits
  (ILND : string -> option (list string)) (nf : UnifiedNumberFormat)
  (st : LoopState) :
  useGrouping nf = true ->
  (if String.eqb (numberingSystem nf) "" then None
   else ILND (numberingSystem nf)) = None ->
  allDigits (n st) = true -> n st <> "" ->
  exists first rest,
    joinAll (first :: rest) = n st /\
    1 <= JS.strlen first <= 3 /\
    Forall (fun g => JS.strlen g = 3) rest /\
    numberParts ILND nf st
    = mkState
        (results st ++
         mkPart PartType.integer first
         :: flat_map (fun g => [mkPart PartType.group
                                  (sym_group (symbols (ild (ildData nf))));
                                mkPart PartType.integer g]) rest)
        (n st) (exponent st).
Proof.
  intros Hg Hnu Hall Hne.
  assert (Hlen : 1 <= JS.strlen (n st)).
  { destruct (n st); [congruence|]. rewrite strlen_cons.
    pose proof (strlen_nonneg s). lia. }
  destruct (groupLoop_spec (n st) (String.length (n st)) (JS.strlen (n st) - 3)
              [] ltac:(lia) ltac:(lia) ltac:(unfold JS.strlen; lia))
    as (new & i' & Hloop & Hi' & Hle & Hnew & Hjoin).
  exists (JS.slice (n st) 0 (i' + 3)), (rev new).
  split.
  { cbn [joinAll]. rewrite Hjoin.
    replace (JS.strlen (n st) - 3 + 3) with (JS.strlen (n st)) by lia.
    rewrite slice_concat by lia. apply slice_whole. }
  split; [rewrite strlen_slice by lia; lia|].
  split; [now apply Forall_rev|].
  unfold numberParts. rewrite Hnu, Hg. cbv zeta.
  unfold JS.indexOf. rewrite indexOfFrom_allDigits by exact Hall.
  change (-1 >? 0) with false. cbv iota.
  rewrite Hloop. cbn [app]. rewrite rev_app_distr. cbn [rev app].
  rewrite popGroups_interleave, app_nil_r. reflexivity.
Qed.

Lemma grouping_of_integer_digits_witness :
  exists first rest,
    joinAll (first :: rest) = "1234567" /\
    1 <= JS.strlen first <= 3 /\
    Forall (fun g => JS.strlen g = 3) rest /\
    numberParts En.ILND En.decimalFormat (mkState [] "1234567" 0)
    = mkState
        (mkPart PartType.integer first
         :: flat_map (fun g => [mkPart PartType.group ",";
                                mkPart PartType.integer g]) rest)
        "1234567" 0.
Proof.
  apply (grouping_of_integer_digits En.ILND En.decimalFormat
           (mkState [] "1234567" 0)).
  - reflexivity.
  - reflexivity.
  - reflexivity.
  - discriminate.
Defined.

Lemma replaceDigits_append (table : list string) (s t : string) :
  replaceDigits table (s ++ t)
  = (replaceDigits table s ++ replaceDigits table t)%string.
Proof.
  induction s as [|c s IH]; [reflexivity|].
  cbn [append replaceDigits]. now rewrite IH, append_assoc.
Qed.

Lemma noPoint_append (s t : string) :
  noPoint (s ++ t) = noPoint s && noPoint t.
Proof.
  induction s as [|c s IH]; [reflexivity|].
  cbn [append noPoint]. now rewrite IH, andb_assoc.
Qed.

Lemma noPoint_nth (table : list string) (d : nat) :
  Forall (fun entry => noPoint entry = true) table ->
  noPoint (nth d table "undefined") = true.
Proof.
  intros H. revert d. induction H as [|e l He Hl IH]; intros d.
  - destruct d; reflexivity.
  - destruct d; [exact He | apply IH].
Qed.

Lemma noPoint_replaceDigits (table : list string) (s : string) :
  Forall (fun entry => noPoint entry = true) table ->
  noPoint (replaceDigits table s) = true.
Proof.
  intros H. induction s as [|c s IH]; [reflexivity|].
  cbn [replaceDigits]. rewrite noPoint_append, IH, andb_true_r.
  destruct (digitValue c); [now apply noPoint_nth | reflexivity].
Qed.

Lemma indexOfFrom_noPoint (s : string) (i : Z) :
  noPoint s = true -> JS.indexOfFrom s "." i = -1.
Proof.
  revert i. induction s as [|c s IH]; intros i; [reflexivity|].
  cbn [noPoint]. intros H. apply andb_true_iff in H. destruct H as [Hc Hs].
  cbn [JS.indexOfFrom]. apply negb_true_iff in Hc. rewrite Hc.
  now apply IH.
Qed.

(** X13: when the numbering system has a digit table whose entries hold no
    decimal point, every character of the digit string is looked up in the
    table, the decimal point included: a digit string [a.b] becomes the
    replaced [a], the text [undefined] and the replaced [b]; the result has
    no decimal point, so without grouping the number token yields a single
    [integer] part and no [decimal] or [fraction] part. *)
Theorem digit_replacement_drops_decimal_point
  (ILND : string -> option (list string)) (nf : UnifiedNumberFormat)
  (st : LoopState) (table : list string) :
  numberingSystem nf <> "" ->
  ILND (numberingSystem nf) = Some table ->
  Forall (fun entry => noPoint entry = true) table ->
  useGrouping nf = false ->
  let replaced := replaceDigits table (n st) in
  numberParts ILND nf st
  = mkState (results st ++ [mkPart PartType.integer replaced]) replaced
      (exponent st) /\
  forall a b : string, n st = (a ++ "." ++ b)%string ->
    replaced = (replaceDigits table a ++ "undefined"
                ++ replaceDigits table b)%string.
Proof.
  intros Hnu Htab Hall Hg replaced. split.
  - unfold numberParts. cbv zeta.
    apply String.eqb_neq in Hnu. rewrite Hnu, Htab, Hg. fold replaced.
    unfold JS.indexOf.
    rewrite indexOfFrom_noPoint by now apply noPoint_replaceDigits.
    change (-1 >? 0) with false. cbv iota.
    now rewrite app_nil_r.
  - intros a b Hn. subst replaced. rewrite Hn.
    rewrite replaceDigits_append. reflexivity.
Qed.

Lemma digit_replacement_drops_decimal_point_witness :
  numberParts latnDigits ungrouped (mkState [] "1.5" 0)
  = mkState [mkPart PartType.integer "1undefined5"] "1undefined5" 0.
Proof.
  destruct (digit_replacement_drops_decimal_point latnDigits ungrouped
              (mkState [] "1.5" 0)
              ["0"; "1"; "2"; "3"; "4"; "5"; "6"; "7"; "8"; "9"])
    as [H _].
  - discriminate.
  - reflexivity.
  - repeat constructor.
  - reflexivity.
  - rewrite H. vm_compute. reflexivity.
Defined.

(** ** The exponent token *)

Lemma roundExact_integer (k : Z) : roundExact (inject_Z k) = k.
Proof.
  unfold roundExact. rewrite Qfloor_Z, Qceiling_Z.
  destruct (Qlt_bool _ _); reflexivity.
Qed.

(** X14: the [scientificExponent] placeholder never fails: for a negative
    exponent it pushes an [exponentMinusSign] part with the locale's minus
    sign, then in every case an [exponentInteger] part holding the decimal
    numeral of the magnitude of the exponent; the exponent of the loop is
    left at that magnitude. *)
Theorem scientificExponent_part
  (ILND : string -> option (list string)) (nf : UnifiedNumberFormat)
  (num : number) (st : LoopState) :
  formatPart ILND nf num st "{scientificExponent}" =
    Normal
      (mkState
         (results st ++
          (if exponent st <? 0
           then [mkPart PartType.exponentMinusSign
                   (sym_minusSign (symbols (ild (ildData nf))))]
           else []) ++
          [mkPart PartType.exponentInteger
             (JS.toString (Z.abs (exponent st)))])
         (n st) (Z.abs (exponent st))).
Proof.
  unfold formatPart.
  change (JS.slice "{scientificExponent}" 0 1) with "{".
  change (JS.slice "{scientificExponent}" 1 (-1)) with "scientificExponent".
  cbv zeta.
  cbv [InternalSlotToken.number InternalSlotToken.plusSign
       InternalSlotToken.minusSign InternalSlotToken.compactSymbol
       InternalSlotToken.compactName InternalSlotToken.scientificSeparator
       InternalSlotToken.scientificExponent].
  cbn [String.eqb Ascii.eqb Bool.eqb negb orb andb].
  f_equal. unfold push.
  destruct (exponent st <? 0) eqn:E; cbn [results n exponent].
  - apply Z.ltb_lt in E.
    rewrite toRawFixed_integer_string
      by (change 0%Q with (inject_Z 0); rewrite <- Zle_Qle; lia).
    rewrite roundExact_integer, Z.abs_neq by lia.
    rewrite <- app_assoc. reflexivity.
  - apply Z.ltb_ge in E.
    rewrite toRawFixed_integer_string
      by (change 0%Q with (inject_Z 0); rewrite <- Zle_Qle; lia).
    rewrite roundExact_integer, Z.abs_eq by lia.
    reflexivity.
Qed.

(** ** Patterns that cannot be formatted *)

Lemma formatPart_unknown_token
  (ILND : string -> option (list string)) (nf : UnifiedNumberFormat)
  (num : number) (st : LoopState) (part : string) :
  JS.slice part 0 1 = "{" ->
  ~ In (JS.slice part 1 (-1)) knownTokens ->
  formatPart ILND nf num st part = Throw (Error "impossible").
Proof.
  intros Hbrace Hunknown. unfold formatPart. rewrite Hbrace.
  change (negb (String.eqb "{" "{")) with false. cbv iota zeta.
  set (p := JS.slice part 1 (-1)) in *.
  assert (Hne : forall tok, In tok knownTokens -> String.eqb p tok = false).
  { intros tok Hin. apply String.eqb_neq. intros ->. contradiction. }
  unfold knownTokens in Hne.
  rewrite !Hne by (cbn [In]; tauto).
  reflexivity.
Qed.

Lemma formatParts_stops (ILND : string -> option (list string))
  (nf : UnifiedNumberFormat) (num : number) (parts : list string)
  (part : string) :
  In part parts ->
  (forall st, exists e, formatPart ILND nf num st part = Throw e) ->
  forall st, exists e, formatParts ILND nf num parts st = Throw e.
Proof.
  intros Hin Hthrows. induction parts as [|p rest IH]; [contradiction|].
  intros st. cbn [formatParts].
  destruct (formatPart ILND nf num st p) as [st'|e] eqn:E; cbn [bind].
  - destruct Hin as [->|Hin].
    + destruct (Hthrows st) as (e & He). congruence.
    + now apply IH.
  - exists e. reflexivity.
Qed.

(** X15: a pattern part that starts with a brace and whose name is none of
    the placeholders of [InternalSlotToken] makes the loop throw
    [Error('impossible')] when it is reached, so a pattern holding such a
    part is never formatted: the loop ends in a thrown error. *)
Theorem unknown_token_never_formats
  (ILND : string -> option (list string)) (nf : UnifiedNumberFormat)
  (num : number) (parts : list string) (part : string) :
  In part parts ->
  JS.slice part 0 1 = "{" ->
  ~ In (JS.slice part 1 (-1)) knownTokens ->
  (forall st, formatPart ILND nf num st part = Throw (Error "impossible")) /\
  (forall st, exists e, formatParts ILND nf num parts st = Throw e).
Proof.
  intros Hin Hb Hu.
  assert (H : forall st,
             formatPart ILND nf num st part = Throw (Error "impossible"))
    by (intros st; now apply formatPart_unknown_token).
  split; [exact H|].
  apply (formatParts_stops ILND nf num parts part Hin).
  intros st. eexists. apply H.
Qed.

Lemma unknown_token_never_formats_witness :
  (forall st,
     formatPart En.ILND En.decimalFormat (Finite (Real 1)) st "{sign}"
     = Throw (Error "impossible")) /\
  (forall st, exists e,
     formatParts En.ILND En.decimalFormat (Finite (Real 1))
       ["{number}"; "{sign}"] st = Throw e).
Proof.
  apply (unknown_token_never_formats En.ILND En.decimalFormat
           (Finite (Real 1)) ["{number}"; "{sign}"] "{sign}").
  - right. left. reflexivity.
  - reflexivity.
  - intros H. vm_compute in H.
    repeat (destruct H as [H|H]; [discriminate|]). exact H.
Defined.

(** X16: with style [unit] and no pattern entry for the unit in the locale
    data, no input is formatted: [formatToParts] ends in a thrown error,
    either the type error of reading the missing entry or, when the
    exponent is computed first, the not-implemented error of the compact
    notation. *)
Theorem unit_without_patterns_throws
  (ILND : string -> option (list string)) (nf : UnifiedNumberFormat)
  (num : number) :
  style nf = Style.unit ->
  pat_unit (patterns (ildData nf)) (unit nf) = None ->
  exists e, formatToParts ILND nf num = Throw e /\
            (isNotImplemented e \/ exists msg, e = TypeError msg).
Proof.
  intros Hs Hu.
  assert (Ha : forall n x ex,
             assembleParts ILND nf n x ex
             = Throw (TypeError "undefined unit patterns")).
  { intros n0 x ex. unfold assembleParts, getNumberFormatPattern,
      stylePatterns. rewrite Hs, Hu. reflexivity. }
  unfold formatToParts.
  destruct num as [| | |x];
    try (eexists; split; [apply Ha | right; eexists; reflexivity]).
  cbv zeta. destruct (computeExponent nf _) as [ex|e] eqn:E; cbn [bind].
  - eexists; split; [apply Ha | right; eexists; reflexivity].
  - exists e. split; [reflexivity|]. left. right.
    eapply computeExponent_throw; eassumption.
Qed.

Lemma unit_without_patterns_throws_witness :
  exists e,
    formatToParts En.ILND furlongFormat (Finite (Real 5)) = Throw e /\
    (isNotImplemented e \/ exists msg, e = TypeError msg).
Proof.
  apply (unit_without_patterns_throws En.ILND furlongFormat
           (Finite (Real 5)));
    reflexivity.
Defined.
